(** * theano_pyglm: the evaluation cache and the network priors

    A shallow embedding of [utils/theano_func_wrapper.py] (module
    [FuncWrapper]) and of [components/graph.py] (module [Graph]), with the
    properties of the specification stated over them. *)

From Stdlib Require Import List String Ascii Bool Arith ZArith Lia Reals Lra.
From Stdlib Require Import Permutation Sorted OrderedTypeEx.
Import ListNotations.

Local Open Scope string_scope.
Local Open Scope list_scope.

#[local] Set Warnings "-register-all".

(** ** Python exceptions and the error monad *)

Inductive exn : Type :=
| KeyError (k : string)
| TypeError
| AttributeError
| ValueError
| Exception (msg : string).

Definition result (A : Type) : Type := (exn + A)%type.

Definition ret {A} (a : A) : result A := inr a.
Definition raise {A} (e : exn) : result A := inl e.
Definition bind {A B} (m : result A) (k : A -> result B) : result B :=
  match m with
  | inl e => inl e
  | inr a => k a
  end.

Notation "x <- m ;; k" := (bind m (fun x => k))
  (at level 61, m at next level, right associativity).

(** ** Dictionaries with string keys

    A dictionary is the list of its items in the (arbitrary) order in which
    the interpreter iterates over them; the keys of a dictionary are pairwise
    distinct. *)

Definition dict (V : Type) : Type := list (string * V).

Section Dict.
Context {V : Type}.

Definition keys (d : dict V) : list string := map fst d.

Fixpoint get (d : dict V) (k : string) : option V :=
  match d with
  | [] => None
  | (k', v) :: d' => if String.eqb k k' then Some v else get d' k
  end.

Definition contains (d : dict V) (k : string) : bool :=
  match get d k with Some _ => true | None => false end.

(** [sorted(d.items(), key=lambda t: t[0])]: a stable sort on the key, by
    byte-wise lexicographic comparison of the strings. *)
Fixpoint insert_item (x : string * V) (l : list (string * V)) : list (string * V) :=
  match l with
  | [] => [x]
  | y :: l' => if String.leb (fst x) (fst y) then x :: y :: l' else y :: insert_item x l'
  end.

Fixpoint sorted (d : dict V) : list (string * V) :=
  match d with
  | [] => []
  | x :: d' => insert_item x (sorted d')
  end.
End Dict.

Module FuncWrapper.

(** *** Python objects that the wrapper handles *)

Inductive obj : Type :=
| TVar (id : nat)                                (* a Theano variable, compared by identity *)
| NdArray (shape : list nat) (data : list Byte.byte) (* a numpy array: shape and raw buffer *)
| Num (z : Z)                                    (* a scalar *)
| Str (s : string).                              (* a string *)

(** A hierarchical dictionary of symbolic variables: [isinstance(v, dict)]
    tells the two cases apart. *)
Inductive symtree : Type :=
| Leaf (s : obj)
| Dict (d : list (string * symtree)).

(** Values bound to the symbols: [None], a dictionary, or any other object. *)
Inductive pyval : Type :=
| PyNone
| PyObj (o : obj)
| PyDict (d : list (string * pyval)).

Definition is_None (v : pyval) : bool :=
  match v with PyNone => true | _ => false end.

(** [c[k]]: a dictionary raises [KeyError] on a missing key, [None] and the
    other objects cannot be subscripted by a string. *)
Definition subscript (c : pyval) (k : string) : result pyval :=
  match c with
  | PyDict d => match get d k with Some v => ret v | None => raise (KeyError k) end
  | _ => raise TypeError
  end.

(** [v = None; try: v = c[k]; except Exception: pass] *)
Definition try_subscript (c : pyval) (k : string) : pyval :=
  match subscript c k with
  | inr v => v
  | inl _ => PyNone
  end.

(** *** [_flatten]

    [flatten_value v] is what the loop of [_flatten] appends for a value [v]
    of the dictionary: the flattened sub-dictionary, or the leaf itself.  The
    recursive calls are made on the items before they are sorted, which keeps
    the recursion structural; sorting looks at the keys only, so this is the
    loop of the source over [sorted(d.items())] (lemma [_flatten_eq]). *)

Fixpoint flatten_value (v : symtree) : list obj :=
  match v with
  | Leaf s => [s]
  | Dict d =>
      List.concat (map snd (sorted (map (fun kv => (fst kv, flatten_value (snd kv))) d)))
  end.

Definition _flatten (d : dict symtree) : list obj := flatten_value (Dict d).

(** *** [_extract_vals] *)

Definition not_found (sk : string) : exn :=
  Exception ("Key " ++ sk ++ " not found in either vals or defaults!").

(** The loop of [_extract_vals] over the sorted items; [body] is what the loop
    does with the two looked-up values once the check has passed. *)
Fixpoint extract_loop (items : list (string * (pyval -> pyval -> result (list pyval))))
    (vals defaults : pyval) : result (list pyval) :=
  match items with
  | [] => ret []
  | (sk, body) :: rest =>
      let vv := try_subscript vals sk in
      let vd := try_subscript defaults sk in
      if is_None vv && is_None vd then raise (not_found sk)
      else
        lv <- body vv vd ;;
        l <- extract_loop rest vals defaults ;;
        ret (lv ++ l)
  end.

(** [extract_value sv vv vd]: what the loop does for a symbol [sv] once [vv]
    and [vd] have been looked up and the check has passed: recurse on a
    dictionary, append [vv if (vv is not None) else vd] for a leaf.  As in
    [flatten_value] the items are sorted after the recursive calls are set up
    (lemma [_extract_vals_eq] gives the loop in the shape of the source). *)
Fixpoint extract_value (sv : symtree) (vv vd : pyval) {struct sv} : result (list pyval) :=
  match sv with
  | Leaf _ => ret [if negb (is_None vv) then vv else vd]
  | Dict d =>
      extract_loop (sorted (map (fun kv => (fst kv, extract_value (snd kv))) d)) vv vd
  end.

Definition _extract_vals (syms : dict symtree) (vals defaults : pyval) : result (list pyval) :=
  extract_value (Dict syms) vals defaults.

(** *** [seval] and its cache *)

Definition obj_eq_dec (x y : obj) : {x = y} + {x <> y}.
Proof.
  decide equality;
    first [ apply Nat.eq_dec | apply Z.eq_dec | apply string_dec
          | apply (list_eq_dec Nat.eq_dec) | apply (list_eq_dec Byte.byte_eq_dec) ].
Defined.

(** The key of the cache: the expression, the hashed flattened symbols and
    the hashed givens; tuples compare component by component. *)
Definition cache_key : Type := (obj * list obj * list (obj * obj))%type.

Definition pair_eq_dec {A B : Type}
    (eq_dec_A : forall x y : A, {x = y} + {x <> y})
    (eq_dec_B : forall x y : B, {x = y} + {x <> y})
    (x y : A * B) : {x = y} + {x <> y}.
Proof. decide equality. Defined.

Definition cache_key_eq_dec : forall x y : cache_key, {x = y} + {x <> y} :=
  pair_eq_dec (pair_eq_dec obj_eq_dec (list_eq_dec obj_eq_dec))
              (list_eq_dec (pair_eq_dec obj_eq_dec obj_eq_dec)).

Arguments obj_eq_dec : simpl never.
Arguments cache_key_eq_dec : simpl never.

(** A compiled Theano function, recorded with what it was compiled from. *)
Record compiled : Type := theano_function {
  fn_inputs : list obj;
  fn_outputs : obj;
  fn_givens : list (obj * obj)
}.

(** The module-level [_func_cache], with a counter of the calls to
    [theano.function]. *)
Record cache : Type := mk_cache {
  _func_cache : list (cache_key * compiled);
  compilations : nat
}.

Definition empty_cache : cache := mk_cache [] 0.

Fixpoint cache_get (c : list (cache_key * compiled)) (k : cache_key) : option compiled :=
  match c with
  | [] => None
  | (k', f) :: c' => if cache_key_eq_dec k k' then Some f else cache_get c' k
  end.

Fixpoint cache_set (c : list (cache_key * compiled)) (k : cache_key) (f : compiled)
  : list (cache_key * compiled) :=
  match c with
  | [] => [(k, f)]
  | (k', f') :: c' =>
      if cache_key_eq_dec k k' then (k, f) :: c' else (k', f') :: cache_set c' k f
  end.

Section Seval.
(** [hashlib.sha1(buffer).hexdigest()] and the call of a compiled function
    belong to the libraries. *)
Variable sha1_hexdigest : list Byte.byte -> string.
Variable output : Type.
Variable call : compiled -> list pyval -> result output.

(** [hashlib.sha1(v).hexdigest() if isinstance(v, np.ndarray) else v]: the
    digest is taken over the buffer of the array. *)
Definition hash_value (v : obj) : obj :=
  match v with
  | NdArray _ data => Str (sha1_hexdigest data)
  | _ => v
  end.

Definition hashable_givens (givens : list (obj * obj)) : list (obj * obj) :=
  map (fun kv => (fst kv, hash_value (snd kv))) givens.

Definition hashable_syms (syms : dict symtree) : list obj :=
  map hash_value (_flatten syms).

Definition seval (st : cache) (expr : obj) (syms : dict symtree) (vals defaults : pyval)
    (givens : list (obj * obj)) : cache * result output :=
  let key := (expr, hashable_syms syms, hashable_givens givens) in
  let '(st', f) :=
    match cache_get (_func_cache st) key with
    | Some f => (st, f)
    | None =>
        let sargs := _flatten syms in
        let f := if Nat.eqb (List.length givens) 0
                 then theano_function sargs expr []
                 else theano_function sargs expr givens in
        (mk_cache (cache_set (_func_cache st) key f) (S (compilations st)), f)
    end in
  (st', args <- _extract_vals syms vals defaults ;; call f args).

End Seval.

Arguments seval sha1_hexdigest {output} call st expr syms vals defaults givens.

(** *** Paths into the trees, used to state what the two traversals compute *)

Definition path : Type := list string.

(** The value found by following [p] from [c], [None] as soon as a step fails. *)
Fixpoint lookup_path (c : pyval) (p : path) : pyval :=
  match p with
  | [] => c
  | k :: p' => lookup_path (try_subscript c k) p'
  end.

(** Value resolution of one symbol: the bound value unless it is [None]. *)
Definition resolve (vals defaults : pyval) (p : path) : pyval :=
  if negb (is_None (lookup_path vals p)) then lookup_path vals p
  else lookup_path defaults p.

Definition under {A} (k : string) (l : list (path * A)) : list (path * A) :=
  map (fun ps => (k :: fst ps, snd ps)) l.

(** The leaf symbols with their paths, in the order of the build-time traversal. *)
Fixpoint leaf_paths_value (v : symtree) : list (path * obj) :=
  match v with
  | Leaf s => [([], s)]
  | Dict d =>
      List.concat (map (fun kc => under (fst kc) (snd kc))
                  (sorted (map (fun kv => (fst kv, leaf_paths_value (snd kv))) d)))
  end.

Definition leaf_paths (syms : dict symtree) : list (path * obj) :=
  leaf_paths_value (Dict syms).

(** The paths of all entries (sub-dictionaries and leaf symbols) below the root. *)
Fixpoint node_paths_value (v : symtree) : list path :=
  match v with
  | Leaf _ => []
  | Dict d =>
      List.concat (map (fun kv => [fst kv] :: map (cons (fst kv)) (node_paths_value (snd kv))) d)
  end.

Definition node_paths (syms : dict symtree) : list path := node_paths_value (Dict syms).




(** *** Predicates and inputs used in the statements *)

(** Induction over a symbol tree, with the hypothesis for every entry of a
    dictionary. *)
Section SymtreeInd.
Variable P : symtree -> Prop.
Hypothesis HLeaf : forall s, P (Leaf s).
Hypothesis HDict : forall d, Forall (fun kv => P (snd kv)) d -> P (Dict d).

Fixpoint symtree_ind' (t : symtree) : P t :=
  match t with
  | Leaf s => HLeaf s
  | Dict d =>
      HDict d ((fix entries (l : list (string * symtree)) : Forall (fun kv => P (snd kv)) l :=
                  match l with
                  | [] => Forall_nil _
                  | kv :: l' => Forall_cons kv (symtree_ind' (snd kv)) (entries l')
                  end) d)
  end.
End SymtreeInd.

(** What a successful extraction returns: the resolution of every leaf path,
    in the order of [leaf_paths_value]. *)
Definition extracts_resolved (sv : symtree) : Prop :=
  forall vv vd l, extract_value sv vv vd = inr l ->
    l = map (fun ps => resolve vv vd (fst ps)) (leaf_paths_value sv).

(** A successful extraction never returns [None]: the check of the loop has
    passed for every leaf. *)
Definition extracts_bound (sv : symtree) : Prop :=
  forall vv vd l, is_None vv && is_None vd = false ->
    extract_value sv vv vd = inr l -> Forall (fun v => is_None v = false) l.

(** Neither the values nor the defaults give anything but [None] at [p]. *)
Definition unbound_at (vv vd : pyval) (p : path) : Prop :=
  lookup_path vv p = PyNone /\ lookup_path vd p = PyNone.

(** A failure names a key: the last step of the path of an entry of the
    symbol tree at which both look-ups give [None]. *)
Definition fails_on_entry (entries : list path) (vv vd : pyval) (e : exn) : Prop :=
  exists q k, e = not_found k /\ In (q ++ [k]) entries /\ unbound_at vv vd (q ++ [k]).

(** The failures of the extraction from one subtree. *)
Definition extract_error (sv : symtree) : Prop :=
  forall vv vd e, extract_value sv vv vd = inl e ->
    fails_on_entry (node_paths_value sv) vv vd e.

(** The paths of the entries below a list of items. *)
Definition entries_of (ds : list (string * symtree)) : list path :=
  List.concat (map (fun kv => [fst kv] :: map (cons (fst kv)) (node_paths_value (snd kv))) ds).


(** The order of the items: byte-wise lexicographic on the keys, strict. *)
Definition key_lt {V} (x y : string * V) : Prop := String.compare (fst x) (fst y) = Lt.

(** A nested symbol tree, listed against the order of its keys, and bindings
    for it. *)
Definition demo_syms : dict symtree :=
  [("net", Dict [("y", Leaf (TVar 2)); ("x", Leaf (TVar 1))]); ("A", Leaf (TVar 0))].

Definition demo_vals : pyval :=
  PyDict [("A", PyObj (Num 10));
          ("net", PyDict [("x", PyObj (Num 11)); ("y", PyObj (Num 12))])].

(** A symbol below a sub-dictionary whose binding is missing. *)
Definition nested_syms : dict symtree := [("b", Dict [("x", Leaf (TVar 1))])].
Definition nested_vals : pyval := PyDict [("b", PyDict [])].

(** The calls of the cache scenario: one symbol, one given whose value is an
    array of six bytes, first of shape 2x3, then of shape 3x2. *)
Definition six_bytes : list Byte.byte :=
  [Byte.x01; Byte.x02; Byte.x03; Byte.x04; Byte.x05; Byte.x06].
Definition cache_expr : obj := TVar 0.
Definition cache_syms : dict symtree := [("x", Leaf (TVar 1))].
Definition cache_vals : pyval := PyDict [("x", PyObj (Num 5))].
Definition givens_2x3 : list (obj * obj) := [(TVar 2, NdArray [2; 3] six_bytes)].
Definition givens_3x2 : list (obj * obj) := [(TVar 2, NdArray [3; 2] six_bytes)].

(** *** The states of the cache and the equality of symbol trees *)

(** The caches a run can be in: empty at the start, then changed by the calls
    of [seval] only. *)
Inductive reachable (sha1_hexdigest : list Byte.byte -> string) {output : Type}
    (call : compiled -> list pyval -> result output) : cache -> Prop :=
| reachable_empty : reachable sha1_hexdigest call empty_cache
| reachable_seval st expr syms vals defaults givens :
    reachable sha1_hexdigest call st ->
    reachable sha1_hexdigest call
      (fst (seval sha1_hexdigest call st expr syms vals defaults givens)).

(** An entry of the cache holds the function compiled from what its key was
    computed from. *)
Definition key_of_compiled (sha1_hexdigest : list Byte.byte -> string) (f : compiled)
  : cache_key :=
  (fn_outputs f, map (hash_value sha1_hexdigest) (fn_inputs f),
   hashable_givens sha1_hexdigest (fn_givens f)).

(** Two symbol trees that hold the same items at every level, possibly listed
    in another order. *)
Inductive same_tree : symtree -> symtree -> Prop :=
| same_leaf s : same_tree (Leaf s) (Leaf s)
| same_dict d1 d1' d2 :
    NoDup (keys d1) -> Permutation d1 d1' ->
    Forall2 (fun x y => fst x = fst y /\ same_tree (snd x) (snd y)) d1' d2 ->
    same_tree (Dict d1) (Dict d2).

(** The extraction from a subtree fails when one of its entries is unbound. *)
Definition fails_when_unbound (sv : symtree) : Prop :=
  forall vv vd p, In p (node_paths_value sv) -> unbound_at vv vd p ->
    exists e, extract_value sv vv vd = inl e.

(** The two traversals give the same on two trees. *)
Definition traversals_agree (t1 t2 : symtree) : Prop :=
  flatten_value t1 = flatten_value t2 /\
  forall vv vd, extract_value t1 vv vd = extract_value t2 vv vd.

(** [demo_syms] with the items of both dictionaries listed in the opposite
    order, and bindings with two names the symbols do not mention. *)
Definition demo_syms_reordered : dict symtree :=
  [("A", Leaf (TVar 0)); ("net", Dict [("x", Leaf (TVar 1)); ("y", Leaf (TVar 2))])].

Definition demo_vals_more : pyval :=
  PyDict [("bias", PyObj (Num 3)); ("A", PyObj (Num 10));
          ("net", PyDict [("x", PyObj (Num 11)); ("y", PyObj (Num 12))]);
          ("bkgd", PyDict [])].

(** An object that is a Theano variable: it is its own hash, nothing else has
    this hash, and it is equal to itself only. *)
Definition plain (o : obj) : Prop :=
  match o with
  | TVar _ => True
  | _ => False
  end.

End FuncWrapper.

(** * [components/graph.py]: the network priors *)

Module Graph.

Local Open Scope R_scope.

(** *** Floating-point values

    A float is a real number or one of the special values; rounding, overflow
    and the sign of zero are left out. *)
Inductive fval : Type :=
| Fin (r : R)
| PInf
| NInf
| NaN.

Definition is_finite (x : fval) : bool :=
  match x with Fin _ => true | _ => false end.

Definition sgn (r : R) : comparison :=
  if Rlt_dec 0 r then Gt else if Rlt_dec r 0 then Lt else Eq.

(** The infinity of a sign; [nan] for the sign of zero. *)
Definition inf_of (s : comparison) : fval :=
  match s with Gt => PInf | Lt => NInf | Eq => NaN end.

Definition fneg (x : fval) : fval :=
  match x with
  | Fin a => Fin (- a)
  | PInf => NInf
  | NInf => PInf
  | NaN => NaN
  end.

Definition fadd (x y : fval) : fval :=
  match x, y with
  | NaN, _ | _, NaN => NaN
  | Fin a, Fin b => Fin (a + b)
  | PInf, NInf | NInf, PInf => NaN
  | PInf, _ | _, PInf => PInf
  | NInf, _ | _, NInf => NInf
  end.

Definition fsub (x y : fval) : fval := fadd x (fneg y).

Definition fmul (x y : fval) : fval :=
  match x, y with
  | NaN, _ | _, NaN => NaN
  | Fin a, Fin b => Fin (a * b)
  | Fin a, PInf | PInf, Fin a => inf_of (sgn a)
  | Fin a, NInf | NInf, Fin a => inf_of (CompOpp (sgn a))
  | PInf, PInf | NInf, NInf => PInf
  | PInf, NInf | NInf, PInf => NInf
  end.

(** Division does not raise: a finite value over zero is an infinity, zero
    over zero is [nan]. *)
Definition fdiv (x y : fval) : fval :=
  match x, y with
  | NaN, _ | _, NaN => NaN
  | Fin a, Fin b => if Req_dec_T b 0 then inf_of (sgn a) else Fin (a / b)
  | Fin _, _ => Fin 0
  | PInf, Fin b => if Rlt_dec b 0 then NInf else PInf
  | NInf, Fin b => if Rlt_dec b 0 then PInf else NInf
  | _, _ => NaN
  end.

(** [x ** 2] *)
Definition fsqr (x : fval) : fval :=
  match x with
  | Fin a => Fin (a * a)
  | NaN => NaN
  | _ => PInf
  end.

(** [log]: minus infinity at zero, [nan] below. *)
Definition flog (x : fval) : fval :=
  match x with
  | Fin a => if Rlt_dec 0 a then Fin (ln a) else if Req_dec_T a 0 then NInf else NaN
  | PInf => PInf
  | _ => NaN
  end.

Definition fexp (x : fval) : fval :=
  match x with
  | Fin a => Fin (exp a)
  | PInf => PInf
  | NInf => Fin 0
  | NaN => NaN
  end.

(** [np.minimum] and [np.maximum] *)
Definition fminimum (x y : fval) : fval :=
  match x, y with
  | NaN, _ | _, NaN => NaN
  | Fin a, Fin b => Fin (Rmin a b)
  | NInf, _ | _, NInf => NInf
  | PInf, z | z, PInf => z
  end.

Definition fmaximum (x y : fval) : fval :=
  match x, y with
  | NaN, _ | _, NaN => NaN
  | Fin a, Fin b => Fin (Rmax a b)
  | PInf, _ | _, PInf => PInf
  | NInf, z | z, NInf => z
  end.

(** [x <= y] on floats: false as soon as one side is [nan]. *)
Definition fle (x y : fval) : Prop :=
  match x, y with
  | NaN, _ | _, NaN => False
  | Fin a, Fin b => a <= b
  | NInf, _ | _, PInf => True
  | _, _ => False
  end.

Declare Scope fval_scope.
Delimit Scope fval_scope with fv.
Bind Scope fval_scope with fval.
Infix "+" := fadd : fval_scope.
Infix "-" := fsub : fval_scope.
Infix "*" := fmul : fval_scope.
Infix "/" := fdiv : fval_scope.

(** [sum] of a vector, from the left. *)
Definition fsum (l : list fval) : fval := fold_left fadd l (Fin 0).

(** [T.sum] of the matrix with entry [f i j] at row [i < n] and column
    [j < m]. *)
Definition T_sum (n m : nat) (f : nat -> nat -> fval) : fval :=
  fsum (flat_map (fun i => map (f i) (seq 0 m)) (seq 0 n)).

(** Arrays: [a[i]] and [a[i][j]]; an int8 entry enters the arithmetic as a
    float. *)
Definition vec_get (v : list R) (i : nat) : R := nth i v 0.
Definition mat_get (m : list (list R)) (i j : nat) : R := nth j (nth i m []) 0.
Definition int8_get (m : list (list Z)) (i j : nat) : fval :=
  Fin (IZR (nth j (nth i m []) 0%Z)).

(** [np.ones((n, m))], scaled. *)
Definition ones (n m : nat) : list (list R) := repeat (repeat 1 m) n.
Definition scale (c : R) (m : list (list R)) : list (list R) := map (map (Rmult c)) m.

(** [m[np.diag_indices(n)] = c] *)
Definition set_diag (n : nat) (c : R) (m : list (list R)) : list (list R) :=
  map (fun i => map (fun j => if Nat.eqb i j then c else mat_get m i j) (seq 0 n)) (seq 0 n).

(** [T.eye(n)] *)
Definition eye (i j : nat) : fval := if Nat.eqb i j then Fin 1 else Fin 0.

(** *** The configuration: nested dictionaries of options *)

Inductive cfg : Type :=
| CNone
| CBool (b : bool)
| CInt (z : Z)
| CFloat (r : R)
| CStr (s : string)
| CList (l : list cfg)
| CDict (d : list (string * cfg)).

(** [c[k]] *)
Definition cfg_get (c : cfg) (k : string) : result cfg :=
  match c with
  | CDict d => match get d k with Some v => ret v | None => raise (KeyError k) end
  | _ => raise TypeError
  end.

(** [k in c] *)
Definition cfg_in (k : string) (c : cfg) : bool :=
  match c with
  | CDict d => contains d k
  | _ => false
  end.

(** The truth value of an option in an [if]. *)
Definition truthy (c : cfg) : bool :=
  match c with
  | CNone => false
  | CBool b => b
  | CInt z => negb (Z.eqb z 0)
  | CFloat r => if Req_dec_T r 0 then false else true
  | CStr s => negb (String.eqb s "")
  | CList l => match l with [] => false | _ => true end
  | CDict d => match d with [] => false | _ => true end
  end.

(** A number of the configuration used in arithmetic, and one used as a
    dimension. A negative dimension is refused as [np.ones] refuses it; the
    symbolic constructors ([T.ones], [T.reshape]) would refuse it only when
    the graph is evaluated. [as_floats] reads an array of numbers, which is
    what [alpha0 - 1] and [np.random.dirichlet] compute with. *)
Definition as_float (c : cfg) : result R :=
  match c with
  | CInt z => ret (IZR z)
  | CFloat r => ret r
  | CBool b => ret (if b then 1 else 0)
  | _ => raise TypeError
  end.

Definition as_dim (c : cfg) : result nat :=
  match c with
  | CInt z => if Z.ltb z 0 then raise ValueError else ret (Z.to_nat z)
  | CBool b => ret (if b then 1%nat else 0%nat)
  | _ => raise TypeError
  end.

Definition as_floats (c : cfg) : result (list R) :=
  match c with
  | CList l =>
      fold_right (fun x acc => r <- as_float x ;; rs <- acc ;; ret (r :: rs)) (ret []) l
  | _ => raise TypeError
  end.

(** [s.lower()] on a byte string: the letters A to Z. *)
Definition lower_char (c : ascii) : ascii :=
  let n := nat_of_ascii c in
  if (Nat.leb 65 n && Nat.leb n 90)%bool then ascii_of_nat (n + 32) else c.

Fixpoint lower (s : string) : string :=
  match s with
  | EmptyString => EmptyString
  | String c s' => String (lower_char c) (lower s')
  end.

Definition str_lower (c : cfg) : result string :=
  match c with
  | CStr s => ret (lower s)
  | _ => raise AttributeError
  end.

(** *** The values the variables are bound to *)

Record bindings : Type := mk_bindings {
  b_A : list (list Z);      (* bmatrix A *)
  b_Y : list nat;           (* lvector Y *)
  b_B : list (list R);      (* dmatrix B *)
  b_alpha : list R;         (* dvector alpha *)
  b_L : list R;             (* dvector L *)
  b_delta : R               (* dscalar delta *)
}.

(** *** [CompleteGraphModel] *)

Record CompleteGraphModel : Type := {
  cg_model : cfg;
  cg_A : list (list R);
  cg_log_p : fval
}.

Definition CompleteGraphModel_init (model : cfg) : result CompleteGraphModel :=
  N <- (n <- cfg_get model "N" ;; as_dim n) ;;
  ret {| cg_model := model;
         (* Define complete adjacency matrix *)
         cg_A := ones N N;
         (* Define log probability *)
         cg_log_p := Fin 0 |}.

Definition Complete_get_state (self : CompleteGraphModel) : dict (list (list R)) :=
  [("A", cg_A self)].

(** Modelled from the spec: [CompleteGraphModel] defines no [sample] of its
    own and the base class [Component] it inherits from is not among the
    sources.  The specification: for any N, [sample()] returns an N x N
    all-ones matrix, which is the adjacency matrix the model holds. *)
Definition Complete_sample (self : CompleteGraphModel) : dict (list (list R)) :=
  [("A", cg_A self)].

(** *** [ErdosRenyiGraphModel] *)

Record ErdosRenyiGraphModel : Type := {
  er_model : cfg;
  er_prms : cfg;
  er_N : nat;
  er_rho : list (list R);
  er_lkhd_scale : R          (* the shared variable lkhd_scale *)
}.

Definition ErdosRenyiGraphModel_init (model : cfg) : result ErdosRenyiGraphModel :=
  prms <- (n <- cfg_get model "network" ;; cfg_get n "graph") ;;
  N <- cfg_get model "N" ;;
  (* self.prms['rho'] * np.ones((N, N)): the option is looked up, then the
     matrix of ones is built, then the product is taken *)
  rho <- cfg_get prms "rho" ;;
  N <- as_dim N ;;
  rho <- (r <- as_float rho ;; ret (scale r (ones N N))) ;;
  rho <- (if cfg_in "rho_refractory" prms
          then r <- (x <- cfg_get prms "rho_refractory" ;; as_float x) ;; ret (set_diag N r rho)
          else ret rho) ;;
  ret {| er_model := model; er_prms := prms; er_N := N; er_rho := rho;
         er_lkhd_scale := 1 |}.

(** [T.sum(A * np.log(np.minimum(1.0-1e-8, rho)) +
           (1 - A) * np.log(np.maximum(1e-8, 1.0 - rho)))] *)
Definition ER_lkhd (self : ErdosRenyiGraphModel) (A : list (list Z)) : fval :=
  T_sum (er_N self) (er_N self) (fun i j =>
    let rho := Fin (mat_get (er_rho self) i j) in
    (int8_get A i j * flog (fminimum (Fin (1 - 1e-8)) rho) +
     (Fin 1 - int8_get A i j) * flog (fmaximum (Fin 1e-8) (Fin 1 - rho)))%fv).

Definition ER_log_p (self : ErdosRenyiGraphModel) (A : list (list Z)) : fval :=
  (Fin (er_lkhd_scale self) * ER_lkhd self A)%fv.

(** *** [StochasticBlockGraphModel] *)

Record StochasticBlockGraphModel : Type := {
  sbm_model : cfg;
  sbm_prms : cfg;
  sbm_N : nat;
  sbm_R : nat;
  sbm_b0 : R;
  sbm_b1 : R;
  sbm_alpha0 : list R
}.

Definition StochasticBlockGraphModel_init (model : cfg) : result StochasticBlockGraphModel :=
  prms <- (n <- cfg_get model "network" ;; cfg_get n "graph") ;;
  N <- cfg_get model "N" ;;
  R <- cfg_get prms "R" ;;
  (* T.reshape(self.Y, [self.N, 1]) *)
  N <- as_dim N ;;
  (* Hyperparameters governing B and alpha: read here, used as numbers in the
     log probability below and in sample() *)
  b0 <- cfg_get prms "b0" ;;
  b1 <- cfg_get prms "b1" ;;
  alpha0 <- cfg_get prms "alpha0" ;;
  (* the options as the numbers that log_p and sample() compute with *)
  R <- as_dim R ;;
  b0 <- as_float b0 ;;
  b1 <- as_float b1 ;;
  alpha0 <- as_floats alpha0 ;;
  ret {| sbm_model := model; sbm_prms := prms; sbm_N := N; sbm_R := R;
         sbm_b0 := b0; sbm_b1 := b1; sbm_alpha0 := alpha0 |}.

(** [pA = B[Ym, T.transpose(Ym)]], where [Ym[i][j] = Y[i]] *)
Definition SBM_pA (B : list (list R)) (Y : list nat) (i j : nat) : fval :=
  Fin (mat_get B (nth i Y 0%nat) (nth j Y 0%nat)).

(** [T.sum((b0 - 1) * T.log(B) + (b1 - 1) * T.log(1 - B))] *)
Definition SBM_log_p_B (self : StochasticBlockGraphModel) (B : list (list R)) : fval :=
  fsum (flat_map (map (fun b =>
    (Fin (sbm_b0 self - 1) * flog (Fin b) + Fin (sbm_b1 self - 1) * flog (Fin 1 - Fin b))%fv)) B).

(** [T.sum((alpha0 - 1) * T.log(alpha))] *)
Definition SBM_log_p_alpha (self : StochasticBlockGraphModel) (alpha : list R) : fval :=
  fsum (map (fun aa => (Fin (fst aa - 1) * flog (Fin (snd aa)))%fv)
            (combine (sbm_alpha0 self) alpha)).

(** [T.sum(A * T.log(pA) + (1 - A) * T.log(1 - pA))] *)
Definition SBM_log_p_A (self : StochasticBlockGraphModel)
    (A : list (list Z)) (Y : list nat) (B : list (list R)) : fval :=
  T_sum (sbm_N self) (sbm_N self) (fun i j =>
    (int8_get A i j * flog (SBM_pA B Y i j) +
     (Fin 1 - int8_get A i j) * flog (Fin 1 - SBM_pA B Y i j))%fv).

Definition SBM_log_p (self : StochasticBlockGraphModel)
    (A : list (list Z)) (Y : list nat) (B : list (list R)) (alpha : list R) : fval :=
  (SBM_log_p_B self B + SBM_log_p_alpha self alpha + SBM_log_p_A self A Y B)%fv.

(** *** The collaborators: the location prior and the random generator *)

(** What a [sample] returns under a variable name. *)
Inductive value : Type :=
| VInt8Matrix (m : list (list Z))
| VIntVector (v : list nat)
| VMatrix (m : list (list R))
| VVector (v : list R)
| VScalar (r : R).

(** [(U < p).astype(np.int8)] *)
Definition flt (u : R) (p : fval) : bool :=
  match p with
  | Fin b => if Rlt_dec u b then true else false
  | PInf => true
  | _ => false
  end.

Definition bernoulli (n m : nat) (U : list (list R)) (p : nat -> nat -> fval) : list (list Z) :=
  map (fun i => map (fun j => if flt (mat_get U i j) (p i j) then 1%Z else 0%Z) (seq 0 m))
      (seq 0 n).

(** [L[np.argsort(L[:,0]), :]]: the rows in the order of their first entry. *)
Fixpoint insert_row (r : list R) (l : list (list R)) : list (list R) :=
  match l with
  | [] => [r]
  | r' :: l' => if Rle_dec (hd 0 r) (hd 0 r') then r :: r' :: l' else r' :: insert_row r l'
  end.

Definition sort_rows (L : list (list R)) : list (list R) := fold_right insert_row [] L.

Section Collaborators.
(** [priors.create_prior], the prior it returns, and [np.random] are not part
    of these sources. *)
Variable prior : Type.
Variable create_prior : cfg -> result prior.
Variable prior_log_p : prior -> list (list R) -> fval.
Variable rng : Type.
Variable prior_sample : prior -> nat -> nat -> rng -> list (list R) * rng.
Variable random_rand : nat -> nat -> rng -> list (list R) * rng.
Variable random_dirichlet : list R -> rng -> list R * rng.
Variable random_beta : R -> R -> nat -> nat -> rng -> list (list R) * rng.
Variable random_choice : nat -> nat -> list R -> rng -> list nat * rng.

Definition ER_sample (self : ErdosRenyiGraphModel) (g : rng) : dict value * rng :=
  let N := er_N self in
  let (U, g) := random_rand N N g in
  let A := bernoulli N N U (fun i j => Fin (mat_get (er_rho self) i j)) in
  ([("A", VInt8Matrix A)], g).

Definition SBM_sample (self : StochasticBlockGraphModel) (g : rng) : dict value * rng :=
  let N := sbm_N self in
  (* Sample alpha from a Dirichlet prior *)
  let (alpha, g) := random_dirichlet (sbm_alpha0 self) g in
  (* Sample B from a Beta prior *)
  let (B, g) := random_beta (sbm_b0 self) (sbm_b1 self) (sbm_R self) (sbm_R self) g in
  (* Sample Y from categorical dist *)
  let (Y, g) := random_choice (sbm_R self) (sbm_N self) alpha g in
  let pA := SBM_pA B Y in
  let (U, g) := random_rand N N g in
  let A := bernoulli N N U pA in
  ([("A", VInt8Matrix A); ("Y", VIntVector Y); ("B", VMatrix B); ("alpha", VVector alpha)], g).

(** *** [LatentDistanceGraphModel] *)

Record LatentDistanceGraphModel : Type := {
  ld_model : cfg;
  ld_prms : cfg;
  ld_N : nat;
  ld_N_dims : nat;
  ld_location_prior : prior;
  ld_rho_refractory : option R;   (* the diagonal of pA, when the option is given *)
  ld_lkhd_scale : R               (* the shared variable lkhd_scale *)
}.

Definition LatentDistanceGraphModel_init (model : cfg) : result LatentDistanceGraphModel :=
  prms <- (n <- cfg_get model "network" ;; cfg_get n "graph") ;;
  N <- (n <- cfg_get model "N" ;; as_dim n) ;;
  N_dims <- (x <- cfg_get prms "N_dims" ;; as_dim x) ;;
  (* Create a location prior *)
  location_prior <- (x <- cfg_get prms "location_prior" ;; create_prior x) ;;
  rho_refractory <- (if cfg_in "rho_refractory" prms
                     then r <- (x <- cfg_get prms "rho_refractory" ;; as_float x) ;;
                          ret (Some r)
                     else ret None) ;;
  ret {| ld_model := model; ld_prms := prms; ld_N := N; ld_N_dims := N_dims;
         ld_location_prior := location_prior;
         ld_rho_refractory := rho_refractory;
         ld_lkhd_scale := 1 |}.

(** [Lm = T.reshape(L, (N, N_dims))] *)
Definition LD_Lm (self : LatentDistanceGraphModel) (L : list R) (i d : nat) : R :=
  vec_get L (i * ld_N_dims self + d).

Definition LD_Lm_rows (self : LatentDistanceGraphModel) (L : list R) : list (list R) :=
  map (fun i => map (LD_Lm self L i) (seq 0 (ld_N_dims self))) (seq 0 (ld_N self)).

(** [D = T.pow(L1-L2,2).sum(axis=2)] *)
Definition LD_D (self : LatentDistanceGraphModel) (L : list R) (i j : nat) : fval :=
  fsum (map (fun d => fsqr (Fin (LD_Lm self L i d) - Fin (LD_Lm self L j d))%fv)
            (seq 0 (ld_N_dims self))).

(** The squared Euclidean distance of the locations of [i] and [j] as a real
    number, and the distance itself. *)
Definition LD_sq_dist (self : LatentDistanceGraphModel) (L : list R) (i j : nat) : R :=
  fold_left Rplus
    (map (fun d => (LD_Lm self L i d - LD_Lm self L j d) * (LD_Lm self L i d - LD_Lm self L j d))
         (seq 0 (ld_N_dims self))) 0.

Definition LD_dist (self : LatentDistanceGraphModel) (L : list R) (i j : nat) : R :=
  sqrt (LD_sq_dist self L i j).

(** [pA = T.exp(-0.5*D/delta**2)], then
    [pA += T.eye(N) * (prms['rho_refractory']-pA)] when the option is given. *)
Definition LD_pA (self : LatentDistanceGraphModel) (L : list R) (delta : R) (i j : nat) : fval :=
  let pA := fexp (Fin (-0.5) * LD_D self L i j / fsqr (Fin delta))%fv in
  match ld_rho_refractory self with
  | Some rho_refractory => (pA + eye i j * (Fin rho_refractory - pA))%fv
  | None => pA
  end.

(** [T.sum(A * T.log(pA) + (1 - A) * T.log(1 - pA))] *)
Definition LD_lkhd (self : LatentDistanceGraphModel)
    (A : list (list Z)) (L : list R) (delta : R) : fval :=
  T_sum (ld_N self) (ld_N self) (fun i j =>
    (int8_get A i j * flog (LD_pA self L delta i j) +
     (Fin 1 - int8_get A i j) * flog (Fin 1 - LD_pA self L delta i j))%fv).

Definition LD_log_p (self : LatentDistanceGraphModel)
    (A : list (list Z)) (L : list R) (delta : R) : fval :=
  (Fin (ld_lkhd_scale self) * LD_lkhd self A L delta +
   prior_log_p (ld_location_prior self) (LD_Lm_rows self L))%fv.

Definition LD_sample (self : LatentDistanceGraphModel) (g : rng) : result (dict value) * rng :=
  let N := ld_N self in
  (* Sample locations from prior *)
  let (L, g) := prior_sample (ld_location_prior self) (ld_N self) (ld_N_dims self) g in
  match cfg_get (ld_prms self) "sorted" with
  | inl e => (raise e, g)
  | inr sorted_option =>
      let L := if truthy sorted_option then sort_rows L else L in
      let L := List.concat L in
      match (x <- cfg_get (ld_prms self) "delta" ;; as_float x) with
      | inl e => (raise e, g)
      | inr delta =>
          (* Sample A from pA *)
          let pA := LD_pA self L delta in
          let (U, g) := random_rand N N g in
          let A := bernoulli N N U pA in
          (ret [("A", VInt8Matrix A); ("L", VVector L); ("delta", VScalar delta)], g)
      end
  end.

(** *** The component and its factory *)

Inductive GraphModel : Type :=
| Complete (graph : CompleteGraphModel)
| ErdosRenyi (graph : ErdosRenyiGraphModel)
| StochasticBlock (graph : StochasticBlockGraphModel)
| LatentDistance (graph : LatentDistanceGraphModel).

Definition create_graph_component (model : cfg) : result GraphModel :=
  type <- (t <- (g <- (n <- cfg_get model "network" ;; cfg_get n "graph") ;;
                 cfg_get g "type") ;;
           str_lower t) ;;
  if String.eqb type "complete" then
    graph <- CompleteGraphModel_init model ;; ret (Complete graph)
  else if (String.eqb type "erdos_renyi" || String.eqb type "erdosrenyi")%bool then
    graph <- ErdosRenyiGraphModel_init model ;; ret (ErdosRenyi graph)
  else if String.eqb type "sbm" then
    graph <- StochasticBlockGraphModel_init model ;; ret (StochasticBlock graph)
  else if String.eqb type "distance" then
    graph <- LatentDistanceGraphModel_init model ;; ret (LatentDistance graph)
  else raise (Exception ("Unrecognized graph model: " ++ type)).

(** [graph.lkhd_scale]: the attribute, where the class defines it. *)
Definition lkhd_scale (graph : GraphModel) : result R :=
  match graph with
  | ErdosRenyi g => ret (er_lkhd_scale g)
  | LatentDistance g => ret (ld_lkhd_scale g)
  | _ => raise AttributeError
  end.

(** [graph.log_p], evaluated with the variables bound to [x]. *)
Definition log_p (graph : GraphModel) (x : bindings) : fval :=
  match graph with
  | Complete g => cg_log_p g
  | ErdosRenyi g => ER_log_p g (b_A x)
  | StochasticBlock g => SBM_log_p g (b_A x) (b_Y x) (b_B x) (b_alpha x)
  | LatentDistance g => LD_log_p g (b_A x) (b_L x) (b_delta x)
  end.

End Collaborators.

Arguments LatentDistanceGraphModel prior : clear implicits.
Arguments GraphModel prior : clear implicits.
Arguments ld_model {prior} self : rename.
Arguments ld_prms {prior} self : rename.
Arguments ld_N {prior} self : rename.
Arguments ld_N_dims {prior} self : rename.
Arguments ld_location_prior {prior} self : rename.
Arguments ld_rho_refractory {prior} self : rename.
Arguments ld_lkhd_scale {prior} self : rename.
Arguments Complete {prior} graph.
Arguments ErdosRenyi {prior} graph.
Arguments StochasticBlock {prior} graph.
Arguments LatentDistance {prior} graph.
Arguments LD_Lm {prior} self L i d.
Arguments LD_Lm_rows {prior} self L.
Arguments LD_D {prior} self L i j.
Arguments LD_sq_dist {prior} self L i j.
Arguments LD_dist {prior} self L i j.
Arguments LD_pA {prior} self L delta i j.
Arguments LD_lkhd {prior} self A L delta.
Arguments lkhd_scale {prior} graph.
Arguments LD_log_p {prior} prior_log_p self A L delta.
Arguments log_p {prior} prior_log_p graph x.
Arguments LD_sample {prior rng} prior_sample random_rand self g.
Arguments LatentDistanceGraphModel_init {prior} create_prior model.
Arguments create_graph_component {prior} create_prior model.

(** The type strings of the specification. *)
Definition recognized : list string :=
  ["complete"; "erdos_renyi"; "erdosrenyi"; "sbm"; "distance"].

(** *** Inputs used in the statements *)

(** Inversion of a successful sequence of steps in the error monad. *)
Ltac bind_inv H :=
  repeat match type of H with
         | bind ?m _ = inr _ =>
             let E := fresh "E" in destruct m eqn:E; cbn [bind] in H; [discriminate H|]
         | (if ?c then _ else _) = inr _ => destruct c
         end.

(** A model of three nodes on a line, with the diagonal set to one. *)
Definition line_model : LatentDistanceGraphModel unit :=
  {| ld_model := CNone; ld_prms := CNone; ld_N := 3; ld_N_dims := 1;
     ld_location_prior := tt; ld_rho_refractory := Some 1; ld_lkhd_scale := 1 |}.

Definition line_locations : list R := [0; 1; 3].

(** A configuration whose graph type is written with a capital letter. *)
Definition capital_model : cfg :=
  CDict [("N", CInt 2);
         ("network", CDict [("graph", CDict [("type", CStr "Complete")])])].

Definition unknown_model : cfg :=
  CDict [("N", CInt 2);
         ("network", CDict [("graph", CDict [("type", CStr "Small-World")])])].

(** A configuration of the latent distance model without [sorted]. *)
Definition distance_options : list (string * cfg) :=
  [("type", CStr "distance"); ("N_dims", CInt 2); ("delta", CFloat 1);
   ("location_prior", CDict [("type", CStr "gaussian")])].

Definition distance_model : cfg :=
  CDict [("N", CInt 3); ("network", CDict [("graph", CDict distance_options)])].

(** *** [get_variables]

    The Theano variables of a model, each of a type and with a name; a model
    returns them in a dictionary under [str(variable)], its name. *)
Inductive tvar : Type :=
| bmatrix (name : string)
| lvector (name : string)
| dmatrix (name : string)
| dvector (name : string)
| dscalar (name : string).

Definition str (v : tvar) : string :=
  match v with
  | bmatrix n | lvector n | dmatrix n | dvector n | dscalar n => n
  end.

Definition ER_get_variables (self : ErdosRenyiGraphModel) : dict tvar :=
  [(str (bmatrix "A"), bmatrix "A")].

Definition SBM_get_variables (self : StochasticBlockGraphModel) : dict tvar :=
  [(str (bmatrix "A"), bmatrix "A"); (str (lvector "Y"), lvector "Y");
   (str (dmatrix "B"), dmatrix "B"); (str (dvector "alpha"), dvector "alpha")].

Definition LD_get_variables {prior : Type} (self : LatentDistanceGraphModel prior) : dict tvar :=
  [(str (bmatrix "A"), bmatrix "A"); (str (dvector "L"), dvector "L");
   (str (dscalar "delta"), dscalar "delta")].

(** A value that can be bound to a variable of the type. *)
Definition has_type (v : value) (t : tvar) : bool :=
  match v, t with
  | VInt8Matrix _, bmatrix _ => true
  | VIntVector _, lvector _ => true
  | VMatrix _, dmatrix _ => true
  | VVector _, dvector _ => true
  | VScalar _, dscalar _ => true
  | _, _ => false
  end.

(** The option [rho_refractory] of the graph options: its value, or absent. *)
Definition rho_refractory_is (prms : cfg) (rr : option R) : Prop :=
  match rr with
  | Some c => cfg_in "rho_refractory" prms = true /\
              (x <- cfg_get prms "rho_refractory" ;; as_float x) = inr c
  | None => cfg_in "rho_refractory" prms = false
  end.

(** The rows are in the order of their first entries. *)
Definition rows_sorted (L : list (list R)) : Prop :=
  Sorted (fun r r' => hd 0 r <= hd 0 r') L.

(** [pyglm/models/sparse_weighted_model.py]: the configuration
    [SparseWeightedModel]. *)
Definition cosine_basis (n_cos : Z) : cfg :=
  CDict [("type", CStr "cosine"); ("n_eye", CInt 0); ("n_cos", CInt n_cos);
         ("a", CFloat (1.0 / 120)); ("b", CFloat 0.5);
         ("orth", CBool false); ("norm", CBool true)].

Definition SparseWeightedModel : cfg :=
  CDict
    [("N", CInt 1);
     ("nonlinearity", CDict [("type", CStr "explinear")]);
     ("bias", CDict [("type", CStr "constant"); ("mu", CFloat 20.0); ("sigma", CFloat 0.25)]);
     ("bkgd", CDict [("type", CStr "no_stimulus"); ("D_stim", CInt 1);
                     ("dt_max", CFloat 0.3); ("mu", CInt 0); ("sigma", CFloat 0.5);
                     ("basis", cosine_basis 3)]);
     ("impulse", CDict [("type", CStr "dirichlet"); ("dt_max", CFloat 0.2);
                        ("alpha", CInt 1); ("basis", cosine_basis 5)]);
     ("network",
      CDict [("weight",
              CDict [("type", CStr "gaussian");
                     ("prior", CDict [("type", CStr "gaussian"); ("mu", CFloat 0.0);
                                      ("sigma", CFloat 1.0)]);
                     ("refractory_prior",
                      CDict [("type", CStr "gaussian"); ("mu", CFloat (-1.0));
                             ("sigma", CFloat 0.5)])]);
             ("graph", CDict [("type", CStr "erdos_renyi"); ("rho", CFloat 0.5);
                              ("rho_refractory", CFloat 1.0)])])].

(** Options of a stochastic block model with a negative R and no b0, and of a
    latent distance model that sorts its locations. *)
Definition negative_R_model : cfg :=
  CDict [("N", CInt 2);
         ("network", CDict [("graph", CDict [("type", CStr "sbm"); ("R", CInt (-1))])])].

Definition sorted_distance_options : list (string * cfg) :=
  [("type", CStr "distance"); ("N_dims", CInt 1); ("sorted", CBool true);
   ("location_prior", CDict [("type", CStr "gaussian")])].

(** Erdos-Renyi options for three nodes, and for two nodes without edges
    between them. *)
Definition three_node_options : cfg :=
  CDict [("type", CStr "erdos_renyi"); ("rho", CFloat 0.2); ("rho_refractory", CFloat 0.9)].

Definition three_node_model : cfg :=
  CDict [("N", CInt 3); ("network", CDict [("graph", three_node_options)])].

Definition isolated_options : cfg :=
  CDict [("type", CStr "erdos_renyi"); ("rho", CInt 0); ("rho_refractory", CInt 1)].

Definition isolated_model : cfg :=
  CDict [("N", CInt 2); ("network", CDict [("graph", isolated_options)])].


End Graph.

(** * Properties of the evaluation wrapper *)

Module FuncWrapperSpec.
Import FuncWrapper.

Section SortedFacts.
Context {V W : Type}.
Variable f : V -> W.

Let lift (kv : string * V) : string * W := (fst kv, f (snd kv)).

Lemma insert_item_map x l :
    insert_item (lift x) (map lift l) = map lift (insert_item x l).
Proof.
    induction l as [|y l IH]; simpl; [reflexivity|].
    destruct (String.leb (fst x) (fst y)); simpl; [reflexivity|].
    now rewrite IH.
Qed.

  (** Sorting looks at the keys only, so it commutes with a map over the values. *)
Lemma sorted_map d : sorted (map lift d) = map lift (sorted d).
Proof.
    induction d as [|x d IH]; simpl; [reflexivity|].
    now rewrite IH, insert_item_map.
Qed.
End SortedFacts.

Section SortedPerm.
Context {V : Type}.

Lemma insert_item_perm (x : string * V) l : Permutation (x :: l) (insert_item x l).
Proof.
    induction l as [|y l IH]; simpl; [reflexivity|].
    destruct (String.leb (fst x) (fst y)); [reflexivity|].
    rewrite perm_swap. now constructor.
Qed.

Lemma sorted_perm (d : dict V) : Permutation d (sorted d).
Proof.
    induction d as [|x d IH]; simpl; [reflexivity|].
    rewrite <- insert_item_perm. now constructor.
Qed.

Lemma Forall_sorted (P : string * V -> Prop) d : Forall P d -> Forall P (sorted d).
Proof. intros H. eapply Permutation_Forall; [apply sorted_perm|exact H]. Qed.

Lemma In_sorted (x : string * V) d : In x (sorted d) <-> In x d.
Proof.
    split; intros H.
    - eapply Permutation_in; [symmetry; apply sorted_perm|exact H].
    - eapply Permutation_in; [apply sorted_perm|exact H].
Qed.
End SortedPerm.


Lemma _extract_vals_eq syms vals defaults :
  _extract_vals syms vals defaults =
  extract_loop
    (map (fun kv => (fst kv, fun vv vd =>
                       match snd kv with
                       | Dict d' => _extract_vals d' vv vd
                       | Leaf _ => ret [if negb (is_None vv) then vv else vd]
                       end)) (sorted syms)) vals defaults.
Proof.
  unfold _extract_vals. simpl.
  rewrite (sorted_map extract_value). f_equal.
  apply map_ext. intros [k [s|d']]; reflexivity.
Qed.


Lemma resolve_cons vv vd k p :
  resolve vv vd (k :: p) = resolve (try_subscript vv k) (try_subscript vd k) p.
Proof. reflexivity. Qed.

Lemma map_resolve_under vv vd k (l : list (path * obj)) :
  map (fun ps => resolve vv vd (fst ps)) (under k l) =
  map (fun ps => resolve (try_subscript vv k) (try_subscript vd k) (fst ps)) l.
Proof. unfold under. rewrite map_map. reflexivity. Qed.

(** Inversion of one round of the loop that succeeded. *)
Lemma extract_loop_cons_ok sk body rest vals defaults l :
  extract_loop ((sk, body) :: rest) vals defaults = inr l ->
  (is_None (try_subscript vals sk) && is_None (try_subscript defaults sk) = false) /\
  exists lv l', body (try_subscript vals sk) (try_subscript defaults sk) = inr lv /\
                extract_loop rest vals defaults = inr l' /\ l = lv ++ l'.
Proof.
  simpl.
  destruct (is_None (try_subscript vals sk) && is_None (try_subscript defaults sk));
    [discriminate|].
  destruct (body _ _) as [e|lv]; simpl; [discriminate|].
  destruct (extract_loop rest vals defaults) as [e|l']; simpl; [discriminate|].
  intros [= <-]. split; [reflexivity|]. now exists lv, l'.
Qed.

Lemma extract_loop_resolved (ds : list (string * symtree)) :
  Forall (fun kv => extracts_resolved (snd kv)) ds ->
  forall vals defaults l,
    extract_loop (map (fun kv => (fst kv, extract_value (snd kv))) ds) vals defaults = inr l ->
    l = map (fun ps => resolve vals defaults (fst ps))
            (flat_map (fun kv => under (fst kv) (leaf_paths_value (snd kv))) ds).
Proof.
  induction 1 as [|[k c] ds Hc _ IH]; intros vals defaults l H.
  - simpl in H. now injection H as <-.
  - apply extract_loop_cons_ok in H as [_ (lv & l' & Hb & Hr & ->)].
    simpl. rewrite map_app, map_resolve_under.
    f_equal; [now apply Hc|now apply IH].
Qed.

Lemma extract_value_resolved sv : extracts_resolved sv.
Proof.
  induction sv as [s|d IH] using symtree_ind'; intros vv vd l H.
  - simpl in H. injection H as <-. reflexivity.
  - simpl in H. rewrite (sorted_map extract_value) in H.
    apply extract_loop_resolved in H; [|now apply Forall_sorted].
    simpl. now rewrite (sorted_map leaf_paths_value), map_map, <- flat_map_concat_map.
Qed.

Lemma extract_loop_bound (ds : list (string * symtree)) :
  Forall (fun kv => extracts_bound (snd kv)) ds ->
  forall vals defaults l,
    extract_loop (map (fun kv => (fst kv, extract_value (snd kv))) ds) vals defaults = inr l ->
    Forall (fun v => is_None v = false) l.
Proof.
  induction 1 as [|[k c] ds Hc _ IH]; intros vals defaults l H.
  - simpl in H. injection H as <-. constructor.
  - apply extract_loop_cons_ok in H as [Hchk (lv & l' & Hb & Hr & ->)].
    apply Forall_app. split; [now apply (Hc _ _ _ Hchk)|now apply (IH vals defaults)].
Qed.

Lemma extract_value_bound sv : extracts_bound sv.
Proof.
  induction sv as [s|d IH] using symtree_ind'; intros vv vd l Hchk H.
  - simpl in H. injection H as <-. constructor; [|constructor].
    destruct vv; simpl in *; try reflexivity. exact Hchk.
  - simpl in H. rewrite (sorted_map extract_value) in H.
    apply extract_loop_bound in H; [exact H|now apply Forall_sorted].
Qed.

Lemma _extract_vals_resolved syms vals defaults l :
  _extract_vals syms vals defaults = inr l ->
  l = map (fun ps => resolve vals defaults (fst ps)) (leaf_paths syms).
Proof. apply (extract_value_resolved (Dict syms)). Qed.

Lemma _extract_vals_bound syms vals defaults l :
  _extract_vals syms vals defaults = inr l -> Forall (fun v => is_None v = false) l.
Proof.
  unfold _extract_vals. simpl. rewrite (sorted_map extract_value). intros H.
  apply extract_loop_bound in H; [exact H|].
  apply Forall_forall. intros kv _. apply extract_value_bound.
Qed.



Lemma is_None_true v : is_None v = true -> v = PyNone.
Proof. destruct v; simpl; congruence. Qed.

(** Inversion of one round of the loop that failed. *)
Lemma extract_loop_cons_err sk body rest vals defaults e :
  extract_loop ((sk, body) :: rest) vals defaults = inl e ->
  (try_subscript vals sk = PyNone /\ try_subscript defaults sk = PyNone /\ e = not_found sk) \/
  body (try_subscript vals sk) (try_subscript defaults sk) = inl e \/
  extract_loop rest vals defaults = inl e.
Proof.
  simpl.
  destruct (is_None (try_subscript vals sk)) eqn:Hv;
    destruct (is_None (try_subscript defaults sk)) eqn:Hd; simpl.
  1: { intros [= <-]. left. auto using is_None_true. }
  all: destruct (body _ _) as [e'|lv]; simpl; [intros [= <-]; right; left; reflexivity|];
    destruct (extract_loop rest vals defaults) as [e'|l']; simpl;
    [intros [= <-]; right; right; reflexivity|discriminate].
Qed.

Lemma extract_loop_error (ds : list (string * symtree)) :
  Forall (fun kv => extract_error (snd kv)) ds ->
  forall vals defaults e,
    extract_loop (map (fun kv => (fst kv, extract_value (snd kv))) ds) vals defaults = inl e ->
    fails_on_entry (entries_of ds) vals defaults e.
Proof.
  induction 1 as [|[k c] ds Hc _ IH]; intros vals defaults e H.
  - discriminate.
  - apply extract_loop_cons_err in H as [(Hv & Hd & ->)|[H|H]].
    + exists [], k. split; [reflexivity|]. split; [now left|]. now split.
    + apply Hc in H as (q & k' & -> & Hin & Hv & Hd).
      exists (k :: q), k'. split; [reflexivity|]. split; [|now split].
      unfold entries_of. simpl. right. apply in_or_app. left.
      now apply (in_map (cons k)) in Hin.
    + apply IH in H as (q & k' & -> & Hin & Hu).
      exists q, k'. split; [reflexivity|]. split; [|exact Hu].
      unfold entries_of. simpl. right. apply in_or_app. now right.
Qed.

Lemma entries_of_sorted ds p : In p (entries_of (sorted ds)) -> In p (entries_of ds).
Proof.
  unfold entries_of. rewrite !in_concat.
  intros (l & Hl & Hp). exists l. split; [|exact Hp].
  apply in_map_iff in Hl as (kv & <- & Hkv).
  apply in_map_iff. exists kv. split; [reflexivity|]. now apply In_sorted.
Qed.

Lemma extract_value_error sv : extract_error sv.
Proof.
  induction sv as [s|d IH] using symtree_ind'; intros vv vd e H.
  - discriminate.
  - simpl in H. rewrite (sorted_map extract_value) in H.
    apply extract_loop_error in H; [|now apply Forall_sorted].
    destruct H as (q & k & -> & Hin & Hu).
    exists q, k. split; [reflexivity|]. split; [|exact Hu].
    now apply entries_of_sorted.
Qed.

Lemma _extract_vals_error syms vals defaults e :
  _extract_vals syms vals defaults = inl e ->
  fails_on_entry (node_paths syms) vals defaults e.
Proof. apply (extract_value_error (Dict syms)). Qed.





(** *** The order of the traversal *)

Lemma key_lt_trans {V} (x y z : string * V) : key_lt x y -> key_lt y z -> key_lt x z.
Proof.
  unfold key_lt. intros Hxy Hyz.
  apply String_as_OT.cmp_lt in Hxy. apply String_as_OT.cmp_lt in Hyz.
  apply String_as_OT.cmp_lt. eapply String_as_OT.lt_trans; eassumption.
Qed.

Lemma key_lt_asym {V} (x y : string * V) : key_lt x y -> key_lt y x -> False.
Proof.
  unfold key_lt. intros Hxy Hyx. rewrite String.compare_antisym, Hyx in Hxy. discriminate.
Qed.

Lemma leb_true_lt {V} (x y : string * V) :
  String.leb (fst x) (fst y) = true -> fst x <> fst y -> key_lt x y.
Proof.
  unfold String.leb, key_lt. destruct (String.compare (fst x) (fst y)) eqn:Hc; intros H Hne.
  - apply String.compare_eq_iff in Hc. contradiction.
  - reflexivity.
  - discriminate.
Qed.

Lemma leb_false_lt {V} (x y : string * V) : String.leb (fst x) (fst y) = false -> key_lt y x.
Proof.
  unfold String.leb, key_lt. rewrite (String.compare_antisym (fst y)).
  destruct (String.compare (fst x) (fst y)); simpl; congruence.
Qed.

Lemma insert_item_strongly_sorted {V} (x : string * V) l :
  StronglySorted key_lt l -> ~ In (fst x) (keys l) -> StronglySorted key_lt (insert_item x l).
Proof.
  induction 1 as [|y l Hl IH Hy]; intros Hx; simpl.
  - repeat constructor.
  - simpl in Hx. destruct (String.leb (fst x) (fst y)) eqn:Hle.
    + assert (Hxy : key_lt x y) by (apply leb_true_lt; [exact Hle|intros E; apply Hx; now left]).
      constructor; [now constructor|]. constructor; [exact Hxy|].
      eapply Forall_impl; [|exact Hy]. intros z Hz. eapply key_lt_trans; eassumption.
    + constructor; [apply IH; tauto|].
      eapply Permutation_Forall; [apply insert_item_perm|].
      constructor; [now apply leb_false_lt|exact Hy].
Qed.

(** The items come out in strictly increasing order of their keys. *)
Lemma sorted_strongly_sorted {V} (d : dict V) :
  NoDup (keys d) -> StronglySorted key_lt (sorted d).
Proof.
  induction d as [|x d IH]; simpl; intros H; [constructor|].
  inversion H as [|? ? Hx Hd]; subst.
  apply insert_item_strongly_sorted; [now apply IH|].
  intros Hin. apply Hx. unfold keys in *.
  eapply Permutation_in; [|exact Hin]. apply Permutation_map. symmetry. apply sorted_perm.
Qed.

Lemma strongly_sorted_perm_eq {V} (l1 l2 : list (string * V)) :
  StronglySorted key_lt l1 -> StronglySorted key_lt l2 -> Permutation l1 l2 -> l1 = l2.
Proof.
  intros H1. revert l2. induction H1 as [|x l1 Hl1 IH Hx]; intros l2 H2 Hp.
  - apply Permutation_nil in Hp. now subst.
  - destruct H2 as [|y l2 Hl2 Hy].
    + symmetry in Hp. now apply Permutation_nil in Hp.
    + assert (Hxy : x = y).
      { assert (Hx2 : In x (y :: l2)) by (eapply Permutation_in; [exact Hp|now left]).
        assert (Hy1 : In y (x :: l1))
          by (eapply Permutation_in; [symmetry; exact Hp|now left]).
        destruct Hx2 as [->|Hx2]; [reflexivity|].
        destruct Hy1 as [->|Hy1]; [reflexivity|].
        rewrite Forall_forall in Hx, Hy.
        exfalso. exact (key_lt_asym _ _ (Hx _ Hy1) (Hy _ Hx2)). }
      subst y. f_equal. apply IH; [exact Hl2|]. eapply Permutation_cons_inv; exact Hp.
Qed.

(** The order does not depend on the order in which the dictionary lists its
    items. *)
Lemma sorted_deterministic {V} (d1 d2 : dict V) :
  NoDup (keys d1) -> Permutation d1 d2 -> sorted d1 = sorted d2.
Proof.
  intros Hnd Hp.
  assert (Hnd2 : NoDup (keys d2))
    by (eapply Permutation_NoDup; [apply Permutation_map; exact Hp|exact Hnd]).
  apply strongly_sorted_perm_eq; try now apply sorted_strongly_sorted.
  rewrite <- (sorted_perm d1), <- (sorted_perm d2). exact Hp.
Qed.


(** The extraction reads [vals] through [try_subscript] only. *)
Lemma extract_loop_ext items vals vals' defaults :
  (forall k, try_subscript vals k = try_subscript vals' k) ->
  extract_loop items vals defaults = extract_loop items vals' defaults.
Proof.
  intros H. induction items as [|[sk body] rest IH]; simpl; [reflexivity|].
  now rewrite H, IH.
Qed.

Lemma try_subscript_explicit_None k d k' :
  get d k = None ->
  try_subscript (PyDict ((k, PyNone) :: d)) k' = try_subscript (PyDict d) k'.
Proof.
  intros H. unfold try_subscript. simpl.
  destruct (String.eqb k' k) eqn:E; [|reflexivity].
  apply String.eqb_eq in E. subst k'. now rewrite H.
Qed.

(** *** The cache *)

Lemma cache_get_set_same c k f : cache_get (cache_set c k f) k = Some f.
Proof.
  induction c as [|[k' f'] c IH]; simpl.
  - destruct (cache_key_eq_dec k k); [reflexivity|contradiction].
  - destruct (cache_key_eq_dec k k') as [E|E]; simpl.
    + destruct (cache_key_eq_dec k k); [reflexivity|contradiction].
    + destruct (cache_key_eq_dec k k'); [contradiction|exact IH].
Qed.

Lemma cache_get_set_other c k k' f :
  k <> k' -> cache_get (cache_set c k f) k' = cache_get c k'.
Proof.
  intros Hne. induction c as [|[k0 f0] c IH]; simpl.
  - destruct (cache_key_eq_dec k' k); [congruence|reflexivity].
  - destruct (cache_key_eq_dec k k0) as [E|E]; simpl.
    + subst k0. destruct (cache_key_eq_dec k' k); [congruence|reflexivity].
    + destruct (cache_key_eq_dec k' k0); [reflexivity|exact IH].
Qed.

Section SevalFacts.
Variable sha1_hexdigest : list Byte.byte -> string.
Variable output : Type.
Variable call : compiled -> list pyval -> result output.

Local Abbreviation seval := (FuncWrapper.seval sha1_hexdigest call).
Local Abbreviation key_of expr syms givens :=
  (expr, hashable_syms sha1_hexdigest syms, hashable_givens sha1_hexdigest givens).

(** A hit: nothing is compiled, the cache is left as it is and the cached
    function is called. *)
Lemma seval_hit st expr syms vals defaults givens f :
  cache_get (_func_cache st) (key_of expr syms givens) = Some f ->
  seval st expr syms vals defaults givens =
  (st, args <- _extract_vals syms vals defaults ;; call f args).
Proof. intros H. unfold FuncWrapper.seval. now rewrite H. Qed.

(** A miss: one compilation, from the flattened symbols and these givens, and
    one new entry under the key. *)
Lemma seval_miss st expr syms vals defaults givens :
  cache_get (_func_cache st) (key_of expr syms givens) = None ->
  let f := theano_function (_flatten syms) expr givens in
  seval st expr syms vals defaults givens =
  (mk_cache (cache_set (_func_cache st) (key_of expr syms givens) f) (S (compilations st)),
   args <- _extract_vals syms vals defaults ;; call f args).
Proof.
  intros H. unfold FuncWrapper.seval. rewrite H.
  destruct givens; reflexivity.
Qed.

(** After a call the key is in the cache. *)
Lemma seval_caches st expr syms vals defaults givens :
  exists f,
    cache_get (_func_cache (fst (seval st expr syms vals defaults givens)))
              (key_of expr syms givens) = Some f /\
    snd (seval st expr syms vals defaults givens) =
    (args <- _extract_vals syms vals defaults ;; call f args).
Proof.
  destruct (cache_get (_func_cache st) (key_of expr syms givens)) as [f|] eqn:H.
  - exists f. rewrite (seval_hit _ _ _ _ _ _ _ H). now split.
  - eexists. rewrite (seval_miss _ _ _ _ _ _ H). simpl.
    split; [apply cache_get_set_same|reflexivity].
Qed.

Lemma seval_compilations st expr syms vals defaults givens :
  compilations (fst (seval st expr syms vals defaults givens)) <= S (compilations st).
Proof.
  destruct (cache_get (_func_cache st) (key_of expr syms givens)) as [f|] eqn:H.
  - rewrite (seval_hit _ _ _ _ _ _ _ H). simpl. lia.
  - rewrite (seval_miss _ _ _ _ _ _ H). simpl. lia.
Qed.

(** Two calls with the same expression, the same flattened symbols and the
    same givens: the second call compiles nothing and calls the function the
    first call left in the cache. *)
Lemma seval_same_key_reuses st expr syms syms' vals vals' defaults defaults' givens :
  _flatten syms' = _flatten syms ->
  let r1 := seval st expr syms vals defaults givens in
  let r2 := seval (fst r1) expr syms' vals' defaults' givens in
  fst r2 = fst r1 /\
  compilations (fst r2) <= S (compilations st) /\
  exists f, cache_get (_func_cache (fst r1)) (key_of expr syms givens) = Some f /\
            snd r1 = (args <- _extract_vals syms vals defaults ;; call f args) /\
            snd r2 = (args <- _extract_vals syms' vals' defaults' ;; call f args).
Proof.
  intros Hs r1 r2. subst r1 r2.
  destruct (seval_caches st expr syms vals defaults givens) as (f & Hf & Hr).
  assert (Hk : key_of expr syms' givens = key_of expr syms givens)
    by (unfold hashable_syms; now rewrite Hs).
  rewrite <- Hk in Hf at 1.
  rewrite (seval_hit _ _ _ _ _ _ _ Hf). simpl.
  split; [reflexivity|]. split; [apply seval_compilations|].
  exists f. rewrite <- Hk. auto.
Qed.

(** A call whose hashed givens are not in the cache compiles once, with its
    own givens. *)
Lemma seval_new_key_compiles st expr syms vals defaults givens :
  cache_get (_func_cache st) (key_of expr syms givens) = None ->
  let r := seval st expr syms vals defaults givens in
  compilations (fst r) = S (compilations st) /\
  cache_get (_func_cache (fst r)) (key_of expr syms givens) =
    Some (theano_function (_flatten syms) expr givens) /\
  snd r = (args <- _extract_vals syms vals defaults ;;
           call (theano_function (_flatten syms) expr givens) args).
Proof.
  intros H r. subst r. rewrite (seval_miss _ _ _ _ _ _ H). simpl.
  split; [reflexivity|]. split; [apply cache_get_set_same|reflexivity].
Qed.

End SevalFacts.

(** *** The properties of the specification *)




(** C6, as stated, fails: the symbol at path b/x has no value and no default,
    and the exception names the key x at which the look-ups failed, not the
    path of the symbol. *)
Lemma missing_value_names_last_key_only :
  leaf_paths nested_syms = [(["b"; "x"], TVar 1)] /\
  unbound_at nested_vals PyNone ["b"; "x"] /\
  _extract_vals nested_syms nested_vals PyNone = inl (not_found "x") /\
  (forall sha1 (call : compiled -> list pyval -> result unit) st expr givens,
     snd (seval sha1 call st expr nested_syms nested_vals PyNone givens)
     = inl (Exception "Key x not found in either vals or defaults!")) /\
  (forall sep, not_found "x" <> not_found (String.concat sep ["b"; "x"])).
Proof.
  split; [reflexivity|]. split; [split; reflexivity|]. split; [reflexivity|]. split.
  - intros sha1 call st expr givens. unfold seval.
    destruct (cache_get _ _); reflexivity.
  - intros sep H. unfold not_found in H. simpl in H. discriminate.
Qed.

(** C6, amended: when some leaf symbol has [None] (or nothing) in the values
    and in the defaults, [seval] fails with the exception "Key k not found in
    either vals or defaults!", where k is the last key of the path of an entry
    of the symbol tree (a leaf or a sub-dictionary) at which both look-ups give
    [None]; and a leaf symbol with a value other than [None] in the values
    gets that value, whatever the defaults hold. *)
Theorem seval_missing_value_names_key
    (sha1 : list Byte.byte -> string) (output : Type)
    (call : compiled -> list pyval -> result output)
    (st : cache) (expr : obj) (syms : dict symtree) (vals defaults : pyval)
    (givens : list (obj * obj)) :
  (forall p s, In (p, s) (leaf_paths syms) -> unbound_at vals defaults p ->
     exists q k,
       snd (seval sha1 call st expr syms vals defaults givens) = inl (not_found k) /\
       In (q ++ [k]) (node_paths syms) /\ unbound_at vals defaults (q ++ [k])) /\
  (forall l i p s, _extract_vals syms vals defaults = inr l ->
     nth_error (leaf_paths syms) i = Some (p, s) ->
     is_None (lookup_path vals p) = false ->
     nth_error l i = Some (lookup_path vals p)).
Proof.
  split.
  - intros p s Hin [Hv Hd].
    destruct (seval_caches sha1 output call st expr syms vals defaults givens)
      as (f & _ & ->).
    destruct (_extract_vals syms vals defaults) as [e|l] eqn:H.
    + apply _extract_vals_error in H as (q & k & -> & Hq & Hu).
      now exists q, k.
    + exfalso.
      pose proof (_extract_vals_bound _ _ _ _ H) as Hb.
      rewrite (_extract_vals_resolved _ _ _ _ H) in Hb.
      rewrite Forall_forall in Hb.
      specialize (Hb (resolve vals defaults p)).
      rewrite in_map_iff in Hb.
      assert (Hr : is_None (resolve vals defaults p) = false)
        by (apply Hb; now exists (p, s)).
      unfold resolve in Hr. rewrite Hv, Hd in Hr. discriminate.
  - intros l i p s Hl Hp Hv.
    rewrite (_extract_vals_resolved _ _ _ _ Hl), nth_error_map, Hp. simpl.
    unfold resolve. now rewrite Hv.
Qed.

Lemma seval_missing_value_names_key_witness :
  exists q k,
    snd (seval (fun _ => EmptyString) (fun _ _ => ret tt) empty_cache (TVar 0)
               nested_syms nested_vals PyNone []) = inl (not_found k) /\
    In (q ++ [k]) (node_paths nested_syms) /\
    unbound_at nested_vals PyNone (q ++ [k]).
Proof.
  refine (proj1 (seval_missing_value_names_key _ _ _ _ _ _ _ _ _) ["b"; "x"] (TVar 1) _ _).
  - left. reflexivity.
  - split; reflexivity.
Defined.

(** C9: a [None] in the values counts as no binding.  When the extraction
    succeeds, a leaf symbol whose entry in the values is [None] gets its
    default, which is not [None]; the extraction fails only if the values and
    the defaults both give [None] at some entry of the symbol tree; and
    binding a key to [None] gives the same result as leaving the key out. *)
Theorem none_binding_counts_as_absent (syms : dict symtree) (vals defaults : pyval) :
  (forall l i p s, _extract_vals syms vals defaults = inr l ->
     nth_error (leaf_paths syms) i = Some (p, s) ->
     lookup_path vals p = PyNone ->
     lookup_path defaults p <> PyNone /\
     nth_error l i = Some (lookup_path defaults p)) /\
  (forall e, _extract_vals syms vals defaults = inl e ->
     exists p, In p (node_paths syms) /\ unbound_at vals defaults p) /\
  (forall k d, vals = PyDict d -> get d k = None ->
     _extract_vals syms (PyDict ((k, PyNone) :: d)) defaults =
     _extract_vals syms vals defaults).
Proof.
  split; [|split].
  - intros l i p s Hl Hp Hv.
    pose proof (_extract_vals_bound _ _ _ _ Hl) as Hb.
    rewrite (_extract_vals_resolved _ _ _ _ Hl) in Hb |- *.
    assert (Hi : nth_error (map (fun ps => resolve vals defaults (fst ps)) (leaf_paths syms)) i
                 = Some (lookup_path defaults p)).
    { rewrite nth_error_map, Hp. simpl. unfold resolve. now rewrite Hv. }
    split; [|exact Hi].
    apply nth_error_In in Hi. rewrite Forall_forall in Hb. apply Hb in Hi.
    intros E. rewrite E in Hi. discriminate.
  - intros e He. apply _extract_vals_error in He as (q & k & _ & Hq & Hu).
    now exists (q ++ [k]).
  - intros k d -> Hk. rewrite !_extract_vals_eq.
    apply extract_loop_ext. intros k'. now apply try_subscript_explicit_None.
Qed.

Lemma none_binding_counts_as_absent_witness :
  _extract_vals [("a", Leaf (TVar 0))] (PyDict [("a", PyNone)])
                (PyDict [("a", PyObj (Num 7))]) = inr [PyObj (Num 7)] /\
  nth_error [PyObj (Num 7)] 0 = Some (PyObj (Num 7)).
Proof.
  split; [reflexivity|].
  refine (proj2 (proj1 (none_binding_counts_as_absent
                   [("a", Leaf (TVar 0))] (PyDict [("a", PyNone)])
                   (PyDict [("a", PyObj (Num 7))]))
                 [PyObj (Num 7)] 0 ["a"] (TVar 0) _ _ _)); reflexivity.
Defined.

(** C2: the first half holds (see [seval_same_key_reuses]); the second half
    fails.  From the empty cache, two calls with the 2x3 array as the given
    compile once; a third call, whose given is the 3x2 array with the same
    buffer (its entry [1][0] is 3, not 4), has the same key: nothing is
    compiled, no entry is added, and the function compiled with the 2x3 array
    is called. *)
Theorem seval_reuses_evaluator_for_reshaped_given
    (sha1 : list Byte.byte -> string) (output : Type)
    (call : compiled -> list pyval -> result output) :
  let r1 := seval sha1 call empty_cache cache_expr cache_syms cache_vals PyNone givens_2x3 in
  let r2 := seval sha1 call (fst r1) cache_expr cache_syms cache_vals PyNone givens_2x3 in
  let r3 := seval sha1 call (fst r2) cache_expr cache_syms cache_vals PyNone givens_3x2 in
  givens_3x2 <> givens_2x3 /\
  compilations (fst r1) = 1 /\ compilations (fst r2) = 1 /\
  compilations (fst r3) = 1 /\ fst r3 = fst r2 /\
  List.length (_func_cache (fst r3)) = 1 /\
  snd r3 = call (theano_function [TVar 1] cache_expr givens_2x3) [PyObj (Num 5)].
Proof.
  intros r1 r2 r3.
  set (k := (cache_expr, hashable_syms sha1 cache_syms, hashable_givens sha1 givens_2x3)).
  set (f := theano_function [TVar 1] cache_expr givens_2x3).
  assert (H1 : r1 = (mk_cache [(k, f)] 1, call f [PyObj (Num 5)])) by reflexivity.
  assert (Hget : cache_get [(k, f)] k = Some f).
  { cbn [cache_get]. destruct (cache_key_eq_dec k k); [reflexivity|contradiction]. }
  assert (H2 : r2 = (mk_cache [(k, f)] 1, call f [PyObj (Num 5)])).
  { subst r2. rewrite H1. cbn [fst]. erewrite seval_hit; [reflexivity|exact Hget]. }
  assert (H3 : r3 = (mk_cache [(k, f)] 1, call f [PyObj (Num 5)])).
  { subst r3. rewrite H2. cbn [fst]. erewrite seval_hit; [reflexivity|exact Hget]. }
  rewrite H1, H2, H3. cbn [fst snd compilations _func_cache List.length].
  repeat split; try reflexivity.
  intros E. discriminate E.
Qed.

End FuncWrapperSpec.

(** * Properties of the network priors *)

Module GraphSpec.
Import Graph.

Local Open Scope R_scope.

(** *** Sums of floats *)

Lemma fadd_finite x y :
  is_finite (fadd x y) = true -> is_finite x = true /\ is_finite y = true.
Proof. destruct x, y; simpl; intros H; try discriminate; now split. Qed.

Lemma fold_left_fadd_finite l acc :
  is_finite (fold_left fadd l acc) = true ->
  is_finite acc = true /\ Forall (fun x => is_finite x = true) l.
Proof.
  revert acc. induction l as [|x l IH]; simpl; intros acc H.
  - now split.
  - apply IH in H as [H Hl]. apply fadd_finite in H as [Ha Hx].
    split; [exact Ha|now constructor].
Qed.

(** A finite sum has finite entries only. *)
Lemma T_sum_finite n m f i j :
  (i < n)%nat -> (j < m)%nat -> is_finite (T_sum n m f) = true -> is_finite (f i j) = true.
Proof.
  intros Hi Hj H. unfold T_sum, fsum in H.
  apply fold_left_fadd_finite in H as [_ H]. rewrite Forall_forall in H.
  apply H. apply in_flat_map. exists i. split; [apply in_seq; lia|].
  apply in_map. apply in_seq. lia.
Qed.

Lemma fold_left_fadd_Fin (g : nat -> R) l a :
  fold_left fadd (map (fun d => Fin (g d)) l) (Fin a) = Fin (fold_left Rplus (map g l) a).
Proof. revert a. induction l as [|x l IH]; simpl; intros a; [reflexivity|apply IH]. Qed.

Lemma fold_left_Rplus_zero (g : nat -> R) l a :
  (forall d, g d = 0) -> fold_left Rplus (map g l) a = a.
Proof.
  intros Hg. revert a. induction l as [|x l IH]; simpl; intros a; [reflexivity|].
  rewrite IH, Hg. lra.
Qed.


Lemma flog_zero r : r = 0 -> flog (Fin r) = NInf.
Proof.
  intros ->. simpl. destruct (Rlt_dec 0 0); [lra|].
  destruct (Req_dec_T 0 0); [reflexivity|contradiction].
Qed.

Lemma fmul_Fin_NInf_not_finite c : is_finite (fmul (Fin c) NInf) = false.
Proof. simpl. destruct (sgn c); reflexivity. Qed.

Lemma fadd_not_finite_r x y : is_finite y = false -> is_finite (fadd x y) = false.
Proof. destruct x, y; simpl; congruence. Qed.

Lemma fadd_not_finite_l x y : is_finite x = false -> is_finite (fadd x y) = false.
Proof. destruct x, y; simpl; congruence. Qed.

Lemma fmul_not_finite_r x y : is_finite y = false -> is_finite (fmul x y) = false.
Proof.
  destruct x as [a| | |], y as [b| | |]; simpl; try congruence; intros _;
    destruct (sgn a); reflexivity.
Qed.

Section LatentDistance.
Variable prior : Type.
Variable prior_log_p : prior -> list (list R) -> fval.

(** The distances of the code are the squared Euclidean distances. *)
Lemma LD_D_sq_dist (self : LatentDistanceGraphModel prior) L i j :
  LD_D self L i j = Fin (LD_sq_dist self L i j).
Proof.
  unfold LD_D, LD_sq_dist, fsum.
  rewrite <- (fold_left_fadd_Fin
    (fun d => (LD_Lm self L i d - LD_Lm self L j d) * (LD_Lm self L i d - LD_Lm self L j d))).
  reflexivity.
Qed.


Lemma LD_sq_dist_diag (self : LatentDistanceGraphModel prior) L i :
  LD_sq_dist self L i i = 0.
Proof.
  unfold LD_sq_dist.
  apply (fold_left_Rplus_zero
    (fun d => (LD_Lm self L i d - LD_Lm self L i d) * (LD_Lm self L i d - LD_Lm self L i d))).
  intros d. lra.
Qed.

(** The edge probability before the diagonal is overridden. *)
Lemma LD_pA_base (self : LatentDistanceGraphModel prior) L delta i j :
  delta <> 0 ->
  fexp (fdiv (fmul (Fin (-0.5)) (LD_D self L i j)) (fsqr (Fin delta))) =
  Fin (exp (-0.5 * LD_sq_dist self L i j / (delta * delta))).
Proof.
  intros Hd. rewrite LD_D_sq_dist. simpl.
  destruct (Req_dec_T (delta * delta) 0) as [E|_]; [|reflexivity].
  exfalso. apply Rmult_integral in E. tauto.
Qed.


Lemma LD_pA_diagonal_one (self : LatentDistanceGraphModel prior) L delta i :
  delta <> 0 ->
  ld_rho_refractory self = None \/ ld_rho_refractory self = Some 1 ->
  exists p, LD_pA self L delta i i = Fin p /\ p = 1.
Proof.
  intros Hd Hrr. unfold LD_pA. rewrite (LD_pA_base _ _ _ _ _ Hd), LD_sq_dist_diag.
  assert (He : exp (-0.5 * 0 / (delta * delta)) = 1).
  { replace (-0.5 * 0 / (delta * delta)) with 0 by (unfold Rdiv; lra). apply exp_0. }
  rewrite He.
  destruct Hrr as [-> | ->].
  - eexists. split; reflexivity.
  - unfold eye. rewrite Nat.eqb_refl. simpl. eexists. split; [reflexivity|]. lra.
Qed.


(** On the diagonal, where the distance is zero, [log(1 - pA)] is not finite
    unless [rho_refractory] sets the entry to another value than one. *)
Lemma LD_diagonal_log_not_finite (self : LatentDistanceGraphModel prior) L delta i :
  ld_rho_refractory self = None \/ ld_rho_refractory self = Some 1 ->
  is_finite (flog (fsub (Fin 1) (LD_pA self L delta i i))) = false.
Proof.
  intros Hrr. destruct (Req_dec_T delta 0) as [->|Hd].
  - unfold LD_pA. rewrite LD_D_sq_dist, LD_sq_dist_diag. simpl.
    destruct (Req_dec_T (0 * 0) 0) as [_|E]; [|exfalso; apply E; lra].
    unfold sgn. destruct (Rlt_dec 0 (-0.5 * 0)) as [H|_]; [lra|].
    destruct (Rlt_dec (-0.5 * 0) 0) as [H|_]; [lra|].
    destruct Hrr as [-> | ->]; reflexivity.
  - destruct (LD_pA_diagonal_one self L delta i Hd Hrr) as (p & -> & ->).
    assert (H0 : fsub (Fin 1) (Fin 1) = Fin (1 + - 1)) by reflexivity.
    rewrite H0, (flog_zero (1 + - 1)) by lra. reflexivity.
Qed.



(** In the model, where the sums are exact, [D] is the squared Euclidean
    distance, so a smaller distance gives a smaller [D]. *)
Lemma LD_D_le_of_dist_lt (self : LatentDistanceGraphModel prior) (L : list R) (i j k : nat) :
  LD_dist self L i j < LD_dist self L i k ->
  fle (LD_D self L i j) (LD_D self L i k).
Proof.
  intros H. rewrite !LD_D_sq_dist. simpl. unfold LD_dist in H.
  apply sqrt_lt_0_alt in H. lra.
Qed.

(** C1: the likelihood of the latent distance model takes the logarithm of
    [pA] and of [1 - pA] as they are.  On the diagonal the distance is zero and
    [pA] is one unless [rho_refractory] overrides it with another value, so
    [log(1 - pA)] is minus infinity there: the log probability is never finite,
    whatever [A], [L], [delta] and the location prior are. *)
Theorem LD_log_p_not_finite
    (self : LatentDistanceGraphModel prior) (A : list (list Z)) (L : list R) (delta : R) :
  (0 < ld_N self)%nat ->
  ld_rho_refractory self = None \/ ld_rho_refractory self = Some 1 ->
  is_finite (LD_lkhd self A L delta) = false /\
  is_finite (LD_log_p prior_log_p self A L delta) = false.
Proof.
  intros HN Hrr.
  assert (Hl : is_finite (LD_lkhd self A L delta) = false).
  { destruct (is_finite (LD_lkhd self A L delta)) eqn:Hfin; [|reflexivity].
    unfold LD_lkhd in Hfin. apply (T_sum_finite _ _ _ 0%nat 0%nat HN HN) in Hfin.
    cbv beta in Hfin.
    rewrite fadd_not_finite_r in Hfin; [discriminate|].
    apply fmul_not_finite_r. now apply LD_diagonal_log_not_finite. }
  split; [exact Hl|].
  unfold LD_log_p. apply fadd_not_finite_l. now apply fmul_not_finite_r.
Qed.

End LatentDistance.



Lemma LD_log_p_not_finite_witness :
  is_finite (LD_lkhd line_model [[1; 0; 0]; [0; 1; 0]; [0; 0; 1]]%Z line_locations 1) = false /\
  is_finite (LD_log_p (fun _ _ => Fin 0) line_model
                      [[1; 0; 0]; [0; 1; 0]; [0; 0; 1]]%Z line_locations 1) = false.
Proof.
  apply LD_log_p_not_finite.
  - simpl. lia.
  - right. reflexivity.
Defined.

(** *** The Erdos-Renyi likelihood is finite for positive [rho] *)

Lemma fold_left_fadd_all_finite l acc :
  is_finite acc = true -> Forall (fun x => is_finite x = true) l ->
  is_finite (fold_left fadd l acc) = true.
Proof.
  intros Ha Hl. revert acc Ha. induction Hl as [|x l Hx _ IH]; simpl; intros acc Ha.
  - exact Ha.
  - apply IH. destruct acc, x; simpl in *; congruence.
Qed.

Lemma flog_pos r : 0 < r -> flog (Fin r) = Fin (ln r).
Proof. intros H. simpl. destruct (Rlt_dec 0 r); [reflexivity|contradiction]. Qed.

(** The clamps of the Erdos-Renyi model keep the likelihood finite for every
    positive [rho], one included. *)
Lemma ER_lkhd_finite (self : ErdosRenyiGraphModel) (A : list (list Z)) :
  (forall i j, (i < er_N self)%nat -> (j < er_N self)%nat -> 0 < mat_get (er_rho self) i j) ->
  is_finite (ER_lkhd self A) = true.
Proof.
  intros Hrho. unfold ER_lkhd, T_sum, fsum.
  apply fold_left_fadd_all_finite; [reflexivity|].
  apply Forall_forall. intros x Hx.
  apply in_flat_map in Hx as (i & Hi & Hx). apply in_map_iff in Hx as (j & <- & Hj).
  apply in_seq in Hi. apply in_seq in Hj.
  assert (Hr : 0 < mat_get (er_rho self) i j) by (apply Hrho; lia).
  cbv zeta. unfold int8_get.
  change (fminimum (Fin (1 - 1e-8)) (Fin (mat_get (er_rho self) i j)))
    with (Fin (Rmin (1 - 1e-8) (mat_get (er_rho self) i j))).
  change (fmaximum (Fin 1e-8) (fsub (Fin 1) (Fin (mat_get (er_rho self) i j))))
    with (Fin (Rmax 1e-8 (1 + - mat_get (er_rho self) i j))).
  rewrite !flog_pos; [reflexivity| |].
  - eapply Rlt_le_trans; [|apply Rmax_l]. lra.
  - apply Rmin_glb_lt; lra.
Qed.

(** A [rho] of zero is not clamped from below. *)
Lemma ER_lkhd_rho_zero_not_finite (self : ErdosRenyiGraphModel) (A : list (list Z)) i j :
  (i < er_N self)%nat -> (j < er_N self)%nat -> mat_get (er_rho self) i j = 0 ->
  is_finite (ER_lkhd self A) = false.
Proof.
  intros Hi Hj Hr.
  destruct (is_finite (ER_lkhd self A)) eqn:Hfin; [|reflexivity].
  unfold ER_lkhd in Hfin. apply (T_sum_finite _ _ _ i j Hi Hj) in Hfin.
  cbv beta zeta in Hfin. rewrite Hr in Hfin.
  change (fminimum (Fin (1 - 1e-8)) (Fin 0)) with (Fin (Rmin (1 - 1e-8) 0)) in Hfin.
  rewrite (flog_zero (Rmin (1 - 1e-8) 0)) in Hfin
    by (unfold Rmin; destruct (Rle_dec _ _); lra).
  rewrite fadd_not_finite_l in Hfin; [discriminate|].
  unfold int8_get. apply fmul_Fin_NInf_not_finite.
Qed.

(** *** The constructors and the factory *)

Lemma as_dim_of_nat (N : nat) : as_dim (CInt (Z.of_nat N)) = inr N.
Proof.
  unfold as_dim. destruct (Z.ltb_spec (Z.of_nat N) 0) as [H|_]; [lia|].
  unfold ret. now rewrite Nat2Z.id.
Qed.

Lemma ones_shape (n m : nat) :
  List.length (ones n m) = n /\
  Forall (fun row => List.length row = m /\ Forall (eq 1) row) (ones n m).
Proof.
  unfold ones. split; [apply repeat_length|].
  apply Forall_forall. intros row Hrow. apply repeat_spec in Hrow. subst row.
  split; [apply repeat_length|].
  apply Forall_forall. intros x Hx. apply repeat_spec in Hx. now subst.
Qed.

(** The Erdos-Renyi and the latent distance model start with a scale of one
    and multiply the likelihood by the scale they hold. *)
Lemma ER_init_lkhd_scale model g :
  ErdosRenyiGraphModel_init model = inr g -> er_lkhd_scale g = 1.
Proof.
  unfold ErdosRenyiGraphModel_init. intros H.
  bind_inv H; bind_inv H; injection H as <-; reflexivity.
Qed.

Lemma ER_log_p_scaled g A : ER_log_p g A = fmul (Fin (er_lkhd_scale g)) (ER_lkhd g A).
Proof. reflexivity. Qed.

Section Factory.
Variable prior : Type.
Variable create_prior : cfg -> result prior.
Variable prior_log_p : prior -> list (list R) -> fval.
Variable rng : Type.
Variable prior_sample : prior -> nat -> nat -> rng -> list (list R) * rng.
Variable random_rand : nat -> nat -> rng -> list (list R) * rng.

Lemma LD_init_lkhd_scale model g :
  LatentDistanceGraphModel_init create_prior model = inr g -> ld_lkhd_scale g = 1.
Proof.
  unfold LatentDistanceGraphModel_init. intros H.
  bind_inv H; bind_inv H; injection H as <-; reflexivity.
Qed.

Lemma LD_log_p_scaled (g : LatentDistanceGraphModel prior) A L delta :
  LD_log_p prior_log_p g A L delta =
  fadd (fmul (Fin (ld_lkhd_scale g)) (LD_lkhd g A L delta))
       (prior_log_p (ld_location_prior g) (LD_Lm_rows g L)).
Proof. reflexivity. Qed.

(** C4: the stochastic block model has a Bernoulli likelihood term, but no
    [lkhd_scale]: the attribute does not exist and the log probability is the
    plain sum of the two prior terms and the likelihood term, while the
    Erdos-Renyi and the latent distance model hold the scale and multiply their
    likelihood by it. *)
Theorem SBM_log_p_has_no_lkhd_scale (g : StochasticBlockGraphModel) (x : bindings) :
  lkhd_scale (@StochasticBlock prior g) = inl AttributeError /\
  log_p prior_log_p (StochasticBlock g) x =
    fadd (fadd (SBM_log_p_B g (b_B x)) (SBM_log_p_alpha g (b_alpha x)))
         (SBM_log_p_A g (b_A x) (b_Y x) (b_B x)) /\
  (forall er, lkhd_scale (@ErdosRenyi prior er) = inr (er_lkhd_scale er) /\
              log_p prior_log_p (ErdosRenyi er) x =
                fmul (Fin (er_lkhd_scale er)) (ER_lkhd er (b_A x))) /\
  (forall ld, lkhd_scale (LatentDistance ld) = inr (ld_lkhd_scale ld) /\
              log_p prior_log_p (LatentDistance ld) x =
                fadd (fmul (Fin (ld_lkhd_scale ld)) (LD_lkhd ld (b_A x) (b_L x) (b_delta x)))
                     (prior_log_p (ld_location_prior ld) (LD_Lm_rows ld (b_L x)))).
Proof.
  split; [reflexivity|]. split; [reflexivity|]. split.
  - intros er. split; [reflexivity|]. apply ER_log_p_scaled.
  - intros ld. split; [reflexivity|]. apply LD_log_p_scaled.
Qed.

(** C5: for every N the complete model is built, its [sample()] returns the
    N x N matrix of ones, and its log probability is 0 for every input. *)
Theorem Complete_all_ones_log_p_zero (model : cfg) (N : nat) :
  cfg_get model "N" = inr (CInt (Z.of_nat N)) ->
  exists g, CompleteGraphModel_init model = inr g /\
    Complete_sample g = [("A", ones N N)] /\
    List.length (ones N N) = N /\
    Forall (fun row => List.length row = N /\ Forall (eq 1) row) (ones N N) /\
    forall x, log_p prior_log_p (@Complete prior g) x = Fin 0.
Proof.
  intros HN. unfold CompleteGraphModel_init. rewrite HN. cbn [bind].
  rewrite as_dim_of_nat. cbn [bind]. eexists. split; [reflexivity|].
  split; [reflexivity|]. destruct (ones_shape N N) as [Hlen Hrows].
  split; [exact Hlen|]. split; [exact Hrows|]. intros x. reflexivity.
Qed.

(** C7, amended: when the graph type, in lower case, is none of the
    recognized type strings, [create_graph_component] raises the exception
    "Unrecognized graph model: ..." with the lower-case type, and returns no
    model. *)
Theorem create_graph_component_unrecognized (model prms : cfg) (s : string) :
  (n <- cfg_get model "network" ;; cfg_get n "graph") = inr prms ->
  cfg_get prms "type" = inr (CStr s) ->
  ~ In (lower s) recognized ->
  create_graph_component create_prior model =
  inl (Exception ("Unrecognized graph model: " ++ lower s)).
Proof.
  intros Hprms Htype Hnot. unfold create_graph_component.
  rewrite Hprms. cbn [bind]. rewrite Htype. cbn [bind str_lower ret].
  assert (Hne : forall t, In t recognized -> String.eqb (lower s) t = false).
  { intros t Ht. apply String.eqb_neq. intros E. apply Hnot. now rewrite E. }
  rewrite !Hne by (simpl; tauto). reflexivity.
Qed.

(** C10: a configuration of the latent distance model with [N_dims], [delta]
    and [location_prior] but without [sorted]: the model is built, with or
    without [rho_refractory], and every [sample()] raises [KeyError] for the
    key [sorted]. *)
Theorem LD_sample_needs_sorted (model : cfg) (d : list (string * cfg))
    (N N_dims : nat) (location_prior : prior) :
  (n <- cfg_get model "network" ;; cfg_get n "graph") = inr (CDict d) ->
  (n <- cfg_get model "N" ;; as_dim n) = inr N ->
  (x <- cfg_get (CDict d) "N_dims" ;; as_dim x) = inr N_dims ->
  (x <- cfg_get (CDict d) "location_prior" ;; create_prior x) = inr location_prior ->
  contains d "delta" = true ->
  get d "sorted" = None ->
  (forall v, get d "rho_refractory" = Some v -> exists r, as_float v = inr r) ->
  exists self,
    LatentDistanceGraphModel_init create_prior model = inr self /\
    (forall g, fst (LD_sample prior_sample random_rand self g) = inl (KeyError "sorted")) /\
    (get d "rho_refractory" = None -> ld_rho_refractory self = None) /\
    (forall v r, get d "rho_refractory" = Some v -> as_float v = inr r ->
                 ld_rho_refractory self = Some r).
Proof.
  intros Hprms HN Hdims Hprior _ Hsorted Hrr.
  unfold LatentDistanceGraphModel_init.
  rewrite Hprms. cbn [bind]. rewrite HN. cbn [bind]. rewrite Hdims. cbn [bind].
  rewrite Hprior. cbn [bind].
  assert (Hsample : forall self : LatentDistanceGraphModel prior,
             ld_prms self = CDict d ->
             forall g, fst (LD_sample prior_sample random_rand self g)
                       = inl (KeyError "sorted")).
  { intros self Hself g. unfold LD_sample.
    destruct (prior_sample _ _ _ g) as [L g'].
    rewrite Hself. unfold cfg_get. rewrite Hsorted. reflexivity. }
  unfold cfg_in, contains, cfg_get.
  destruct (get d "rho_refractory") as [v|] eqn:Hv.
  - destruct (Hrr v eq_refl) as [r Hr]. cbn [bind ret]. rewrite Hr. cbn [bind ret].
    eexists. split; [reflexivity|]. split; [now apply Hsample|].
    split; [discriminate|].
    intros v' r' [= <-] Hr'. rewrite Hr in Hr'. injection Hr' as <-. reflexivity.
  - cbn [bind ret]. eexists. split; [reflexivity|]. split; [now apply Hsample|].
    split; [reflexivity|discriminate].
Qed.

End Factory.

(** C7, as stated, fails: the type string "Complete" is none of the
    recognized strings, and the factory builds the complete model, since it
    compares the type in lower case. *)
Lemma create_graph_component_ignores_case :
  ~ In "Complete" recognized /\
  create_graph_component (fun _ => @raise unit TypeError) capital_model =
  inr (Complete {| cg_model := capital_model; cg_A := [[1; 1]; [1; 1]]; cg_log_p := Fin 0 |}).
Proof.
  split.
  - simpl. intros H. repeat destruct H as [H|H]; try discriminate H. exact H.
  - reflexivity.
Qed.

Lemma create_graph_component_unrecognized_witness :
  create_graph_component (fun _ => @raise unit TypeError) unknown_model =
  inl (Exception "Unrecognized graph model: small-world").
Proof.
  apply (create_graph_component_unrecognized unit (fun _ => raise TypeError) unknown_model
           (CDict [("type", CStr "Small-World")]) "Small-World").
  - reflexivity.
  - reflexivity.
  - simpl. intros H. repeat destruct H as [H|H]; try discriminate H. exact H.
Defined.

Lemma Complete_all_ones_log_p_zero_witness :
  exists g, CompleteGraphModel_init capital_model = inr g /\
    Complete_sample g = [("A", ones 2 2)] /\
    List.length (ones 2 2) = 2%nat /\
    Forall (fun row => List.length row = 2%nat /\ Forall (eq 1) row) (ones 2 2) /\
    forall x, log_p (fun (_ : unit) _ => NaN) (Complete g) x = Fin 0.
Proof.
  apply (Complete_all_ones_log_p_zero unit (fun _ _ => NaN) capital_model 2).
  reflexivity.
Defined.

Lemma LD_sample_needs_sorted_witness :
  exists self,
    LatentDistanceGraphModel_init (fun _ => ret tt) distance_model = inr self /\
    (forall g : unit,
        fst (LD_sample (fun _ n m g => (repeat (repeat 0 m) n, g))
                       (fun n m g => (repeat (repeat 0 m) n, g)) self g)
        = inl (KeyError "sorted")) /\
    (get distance_options "rho_refractory" = None -> ld_rho_refractory self = None) /\
    (forall v r, get distance_options "rho_refractory" = Some v -> as_float v = inr r ->
                 ld_rho_refractory self = Some r).
Proof.
  apply (LD_sample_needs_sorted unit (fun _ => ret tt) unit
           (fun _ n m g => (repeat (repeat 0 m) n, g))
           (fun n m g => (repeat (repeat 0 m) n, g))
           distance_model distance_options 3 2 tt).
  - reflexivity.
  - reflexivity.
  - reflexivity.
  - reflexivity.
  - reflexivity.
  - reflexivity.
  - intros v H. discriminate H.
Defined.

End GraphSpec.

(** * Further properties of the evaluation wrapper *)

Module FuncWrapperExtra.
Import FuncWrapper FuncWrapperSpec.

(** *** The cache *)

Lemma cache_get_None c k : cache_get c k = None <-> ~ In k (map fst c).
Proof.
  induction c as [|[k' f] c IH]; simpl.
  - tauto.
  - destruct (cache_key_eq_dec k k') as [->|Hne].
    + split; [discriminate|]. intros H. exfalso. apply H. now left.
    + rewrite IH. split.
      * intros H [E|Hin]; [congruence|contradiction].
      * intros H Hin. apply H. now right.
Qed.

Lemma cache_set_absent c k f : cache_get c k = None -> cache_set c k f = c ++ [(k, f)].
Proof.
  induction c as [|[k' f'] c IH]; simpl; [reflexivity|].
  destruct (cache_key_eq_dec k k'); [discriminate|].
  intros H. now rewrite IH.
Qed.

Section Cache.
Variable sha1_hexdigest : list Byte.byte -> string.
Variable output : Type.
Variable call : compiled -> list pyval -> result output.

Local Abbreviation seval := (FuncWrapper.seval sha1_hexdigest call).
Local Abbreviation key_of expr syms givens :=
  (expr, hashable_syms sha1_hexdigest syms, hashable_givens sha1_hexdigest givens).

Lemma reachable_invariant_helper (st : cache) :
  reachable sha1_hexdigest call st ->
  compilations st = List.length (_func_cache st) /\
  NoDup (map fst (_func_cache st)) /\
  Forall (fun kf => key_of_compiled sha1_hexdigest (snd kf) = fst kf) (_func_cache st).
Proof.
  induction 1 as [|st expr syms vals defaults givens _ (Hn & Hnd & Hk)].
  - simpl. split; [reflexivity|]. split; constructor.
  - destruct (cache_get (_func_cache st) (key_of expr syms givens)) as [f|] eqn:Hget.
    + rewrite (seval_hit _ _ _ _ _ _ _ _ _ _ Hget). simpl. auto.
    + rewrite (seval_miss _ _ _ _ _ _ _ _ _ Hget). simpl.
      rewrite (cache_set_absent _ _ _ Hget), length_app, map_app. simpl.
      split; [lia|]. split.
      * apply NoDup_app_remove_l with (l := []). simpl.
        apply Permutation_NoDup with (l := key_of expr syms givens :: map fst (_func_cache st)).
        -- apply Permutation_cons_append.
        -- constructor; [now apply cache_get_None|exact Hnd].
      * apply Forall_app. split; [exact Hk|]. now constructor.
Qed.

(** X1: in every cache a run can reach, the number of compilations so far is the
    number of entries, no key occurs twice, and every entry holds the function
    compiled from the expression, symbols and givens its key was computed
    from. *)
Theorem reachable_cache_invariant (st : cache) :
  reachable sha1_hexdigest call st ->
  compilations st = List.length (_func_cache st) /\
  NoDup (map fst (_func_cache st)) /\
  Forall (fun kf => key_of_compiled sha1_hexdigest (snd kf) = fst kf) (_func_cache st).
Proof.
  intros H. destruct (reachable_invariant_helper st H) as (Hn & Hnd & Hk).
  split; [exact Hn|]. split; [exact Hnd|exact Hk].
Qed.

(** X2: a call never removes or replaces an entry of the cache. *)
Theorem seval_keeps_cached_functions st expr syms vals defaults givens k f :
  cache_get (_func_cache st) k = Some f ->
  cache_get (_func_cache (fst (seval st expr syms vals defaults givens))) k = Some f.
Proof.
  intros Hk.
  destruct (cache_get (_func_cache st) (key_of expr syms givens)) as [f'|] eqn:Hget.
  - now rewrite (seval_hit _ _ _ _ _ _ _ _ _ _ Hget).
  - rewrite (seval_miss _ _ _ _ _ _ _ _ _ Hget). simpl.
    rewrite cache_get_set_other; [exact Hk|]. intros E. rewrite E in Hget. congruence.
Qed.

(** X3: the function is compiled and cached before the values are extracted: a
    call that fails on a missing value has still compiled and stored the
    function, and a later call with the same expression, symbols and givens
    compiles nothing. *)
Theorem seval_caches_before_extracting st expr syms vals defaults givens e :
  cache_get (_func_cache st) (key_of expr syms givens) = None ->
  _extract_vals syms vals defaults = inl e ->
  let r := seval st expr syms vals defaults givens in
  snd r = inl e /\
  compilations (fst r) = S (compilations st) /\
  cache_get (_func_cache (fst r)) (key_of expr syms givens)
    = Some (theano_function (_flatten syms) expr givens) /\
  forall vals' defaults',
    seval (fst r) expr syms vals' defaults' givens =
    (fst r, args <- _extract_vals syms vals' defaults' ;;
            call (theano_function (_flatten syms) expr givens) args).
Proof.
  intros Hget He r. subst r. rewrite (seval_miss _ _ _ _ _ _ _ _ _ Hget). simpl.
  rewrite He. split; [reflexivity|]. split; [reflexivity|].
  split; [apply cache_get_set_same|].
  intros vals' defaults'. apply seval_hit. simpl. apply cache_get_set_same.
Qed.

End Cache.

Lemma reachable_cache_invariant_witness :
  let st := fst (seval (fun _ => EmptyString) (fun _ _ => ret tt) empty_cache
                       cache_expr cache_syms cache_vals PyNone givens_2x3) in
  compilations st = List.length (_func_cache st) /\
  NoDup (map fst (_func_cache st)) /\
  Forall (fun kf => key_of_compiled (fun _ => EmptyString) (snd kf) = fst kf) (_func_cache st).
Proof.
  apply (reachable_cache_invariant (fun _ => EmptyString) unit (fun _ _ => ret tt)).
  apply reachable_seval. apply reachable_empty.
Defined.

Lemma seval_keeps_cached_functions_witness :
  let f := theano_function [TVar 1] cache_expr givens_2x3 in
  let k := (cache_expr, [TVar 1], [(TVar 2, Str EmptyString)]) in
  cache_get
    (_func_cache (fst (seval (fun _ => EmptyString) (fun _ _ => ret tt) (mk_cache [(k, f)] 1)
                             (TVar 7) cache_syms cache_vals PyNone []))) k = Some f.
Proof.
  apply (seval_keeps_cached_functions (fun _ => EmptyString) unit (fun _ _ => ret tt)).
  cbn [cache_get _func_cache].
  destruct (cache_key_eq_dec _ _) as [_|E]; [reflexivity|exfalso; now apply E].
Defined.

Lemma seval_caches_before_extracting_witness :
  let r := seval (fun _ => EmptyString) (fun _ _ => ret tt) empty_cache
                 (TVar 0) nested_syms nested_vals PyNone [] in
  snd r = inl (not_found "x") /\
  compilations (fst r) = 1%nat /\
  cache_get (_func_cache (fst r))
            (TVar 0, hashable_syms (fun _ => EmptyString) nested_syms,
             hashable_givens (fun _ => EmptyString) [])
    = Some (theano_function (_flatten nested_syms) (TVar 0) []) /\
  forall vals' defaults',
    seval (fun _ => EmptyString) (fun _ _ => ret tt) (fst r) (TVar 0) nested_syms
          vals' defaults' [] =
    (fst r, args <- _extract_vals nested_syms vals' defaults' ;;
            (fun _ _ => ret tt) (theano_function (_flatten nested_syms) (TVar 0) []) args).
Proof.
  apply (seval_caches_before_extracting (fun _ => EmptyString) unit (fun _ _ => ret tt)
           empty_cache (TVar 0) nested_syms nested_vals PyNone [] (not_found "x")).
  - reflexivity.
  - reflexivity.
Defined.

(** *** Calls with Theano variables only *)

Lemma hash_value_plain sha1 a b :
  plain b -> hash_value sha1 a = hash_value sha1 b -> a = b.
Proof. destruct b; simpl; try contradiction; intros _; destruct a; simpl; congruence. Qed.

Lemma map_hash_value_plain sha1 l l' :
  Forall plain l' -> map (hash_value sha1) l = map (hash_value sha1) l' -> l = l'.
Proof.
  intros H. revert l. induction H as [|b l' Hb _ IH]; intros [|a l]; simpl; try congruence.
  intros [= Ha Hl]. f_equal; [now apply (hash_value_plain sha1)|now apply IH].
Qed.

Lemma hashable_givens_plain sha1 g g' :
  Forall (fun kv => plain (snd kv)) g' ->
  hashable_givens sha1 g = hashable_givens sha1 g' -> g = g'.
Proof.
  intros H. revert g. unfold hashable_givens.
  induction H as [|[k' v'] g' Hb _ IH]; intros [|[k v] g]; simpl; try congruence.
  intros [= Hk Hv Hg]. subst k'. f_equal; [|now apply IH].
  f_equal. now apply (hash_value_plain sha1).
Qed.

Lemma cache_get_Some_In c k f : cache_get c k = Some f -> In (k, f) c.
Proof.
  induction c as [|[k' f'] c IH]; simpl; [discriminate|].
  destruct (cache_key_eq_dec k k') as [->|_].
  - intros [= ->]. now left.
  - intros H. right. now apply IH.
Qed.

(** X4: when the expression, the symbols and both sides of the givens are
    Theano variables (no arrays, no scalars, no strings), the cache is exact:
    in every cache a run can reach, [seval] calls the function compiled from
    this very expression, these flattened symbols and these givens, whether it
    finds it in the cache or compiles it. *)
Theorem seval_exact_for_variables
    (sha1 : list Byte.byte -> string) (output : Type)
    (call : compiled -> list pyval -> result output)
    (st : cache) (expr : obj) (syms : dict symtree) (vals defaults : pyval)
    (givens : list (obj * obj)) :
  reachable sha1 call st ->
  plain expr ->
  Forall plain (_flatten syms) ->
  Forall (fun kv => plain (fst kv) /\ plain (snd kv)) givens ->
  snd (seval sha1 call st expr syms vals defaults givens) =
  (args <- _extract_vals syms vals defaults ;;
   call (theano_function (_flatten syms) expr givens) args).
Proof.
  intros Hreach _ Hsyms Hgivens.
  assert (Hvalues : Forall (fun kv => plain (snd kv)) givens)
    by (eapply Forall_impl; [|exact Hgivens]; intros kv [_ H]; exact H).
  destruct (cache_get (_func_cache st)
              (expr, hashable_syms sha1 syms, hashable_givens sha1 givens)) as [f|] eqn:Hget.
  - rewrite (seval_hit _ _ _ _ _ _ _ _ _ _ Hget). simpl.
    destruct (reachable_invariant_helper sha1 output call st Hreach) as (_ & _ & Hk).
    rewrite Forall_forall in Hk. specialize (Hk _ (cache_get_Some_In _ _ _ Hget)).
    simpl in Hk. unfold key_of_compiled, hashable_syms in Hk.
    injection Hk as He Hi Hg.
    apply (map_hash_value_plain sha1) in Hi; [|exact Hsyms].
    apply (hashable_givens_plain sha1) in Hg; [|exact Hvalues].
    destruct f as [inputs outputs gs]. simpl in *. now subst.
  - now rewrite (seval_miss _ _ _ _ _ _ _ _ _ Hget).
Qed.

Lemma seval_exact_for_variables_witness :
  let st := fst (seval (fun _ => EmptyString) (fun _ _ => ret tt) empty_cache
                       cache_expr cache_syms cache_vals PyNone [(TVar 2, TVar 3)]) in
  snd (seval (fun _ => EmptyString) (fun _ _ => ret tt) st
             cache_expr cache_syms cache_vals PyNone [(TVar 2, TVar 4)]) =
  (args <- _extract_vals cache_syms cache_vals PyNone ;;
   (fun _ _ => ret tt) (theano_function (_flatten cache_syms) cache_expr [(TVar 2, TVar 4)]) args).
Proof.
  apply (seval_exact_for_variables (fun _ => EmptyString) unit (fun _ _ => ret tt)).
  - apply reachable_seval. apply reachable_empty.
  - exact I.
  - repeat constructor.
  - repeat constructor.
Defined.

(** *** The extraction *)

(** A loop fails as soon as one of its rounds fails. *)
Lemma extract_loop_fails_later x rest vals defaults e :
  extract_loop rest vals defaults = inl e ->
  exists e', extract_loop (x :: rest) vals defaults = inl e'.
Proof.
  intros H. destruct x as [sk body]. simpl.
  destruct (is_None (try_subscript vals sk) && is_None (try_subscript defaults sk));
    [eexists; reflexivity|].
  destruct (body _ _) as [e'|lv]; simpl; [eexists; reflexivity|].
  rewrite H. simpl. eexists; reflexivity.
Qed.

Lemma extract_loop_fails_at (c : symtree) k rest vals defaults :
  (try_subscript vals k = PyNone /\ try_subscript defaults k = PyNone) \/
  (exists e, extract_value c (try_subscript vals k) (try_subscript defaults k) = inl e) ->
  exists e', extract_loop ((k, extract_value c) :: rest) vals defaults = inl e'.
Proof.
  intros [[Hv Hd]|[e He]]; simpl.
  - rewrite Hv, Hd. simpl. eexists; reflexivity.
  - destruct (is_None (try_subscript vals k) && is_None (try_subscript defaults k));
      [eexists; reflexivity|].
    rewrite He. simpl. eexists; reflexivity.
Qed.

Lemma extract_loop_unbound (ds : list (string * symtree)) :
  Forall (fun kv => fails_when_unbound (snd kv)) ds ->
  forall vals defaults p, In p (entries_of ds) -> unbound_at vals defaults p ->
    exists e,
      extract_loop (map (fun kv => (fst kv, extract_value (snd kv))) ds) vals defaults = inl e.
Proof.
  induction 1 as [|[k c] ds Hc _ IH]; intros vals defaults p Hin Hu.
  - destruct Hin.
  - unfold entries_of in Hin. simpl in Hin.
    destruct Hin as [<-|Hin]; [|apply in_app_or in Hin as [Hin|Hin]].
    + apply extract_loop_fails_at. left. exact Hu.
    + apply in_map_iff in Hin as (q & <- & Hq).
      apply extract_loop_fails_at. right. apply (Hc _ _ q Hq). exact Hu.
    + destruct (IH vals defaults p Hin Hu) as [e He].
      eapply extract_loop_fails_later. exact He.
Qed.

Lemma entries_of_unsorted ds p : In p (entries_of ds) -> In p (entries_of (sorted ds)).
Proof.
  unfold entries_of. rewrite !in_concat.
  intros (l & Hl & Hp). exists l. split; [|exact Hp].
  apply in_map_iff in Hl as (kv & <- & Hkv).
  apply in_map_iff. exists kv. split; [reflexivity|]. now apply In_sorted.
Qed.

Lemma extract_value_unbound sv : fails_when_unbound sv.
Proof.
  induction sv as [s|d IH] using symtree_ind'; intros vv vd p Hin Hu.
  - destruct Hin.
  - simpl. rewrite (sorted_map extract_value).
    apply (extract_loop_unbound (sorted d)) with (p := p);
      [now apply Forall_sorted|now apply entries_of_unsorted|exact Hu].
Qed.

(** X5: the extraction succeeds exactly when every entry of the symbol tree, leaf
    symbol or sub-dictionary (an empty one too), has a value other than [None]
    in the values or in the defaults. *)
Theorem extract_vals_succeeds_iff_bound (syms : dict symtree) (vals defaults : pyval) :
  (exists l, _extract_vals syms vals defaults = inr l) <->
  (forall p, In p (node_paths syms) -> ~ unbound_at vals defaults p).
Proof.
  split.
  - intros [l Hl] p Hin Hu.
    destruct (extract_value_unbound (Dict syms) vals defaults p Hin Hu) as [e He].
    unfold _extract_vals in Hl. congruence.
  - intros H. destruct (_extract_vals syms vals defaults) as [e|l] eqn:He.
    + apply _extract_vals_error in He as (q & k & _ & Hin & Hu).
      exfalso. exact (H _ Hin Hu).
    + now exists l.
Qed.

Lemma extract_loop_agree (items : list (string * (pyval -> pyval -> result (list pyval))))
    vals vals' defaults defaults' :
  (forall k, In k (map fst items) -> try_subscript vals k = try_subscript vals' k) ->
  (forall k, In k (map fst items) -> try_subscript defaults k = try_subscript defaults' k) ->
  extract_loop items vals defaults = extract_loop items vals' defaults'.
Proof.
  induction items as [|[sk body] rest IH]; intros Hv Hd; simpl; [reflexivity|].
  rewrite (Hv sk), (Hd sk) by now left.
  rewrite IH; [reflexivity| |]; intros k Hk; [apply Hv|apply Hd]; now right.
Qed.

(** X6: the extraction reads the values and the defaults at the keys of the symbol
    tree only: bindings under other names change neither the values returned
    nor the failure. *)
Theorem extract_vals_ignores_other_keys
    (syms : dict symtree) (vals vals' defaults defaults' : pyval) :
  (forall k, In k (keys syms) -> try_subscript vals k = try_subscript vals' k) ->
  (forall k, In k (keys syms) -> try_subscript defaults k = try_subscript defaults' k) ->
  _extract_vals syms vals defaults = _extract_vals syms vals' defaults'.
Proof.
  intros Hv Hd. rewrite !_extract_vals_eq.
  assert (Hk : forall k,
             In k (map fst (map (fun kv : string * symtree =>
                      (fst kv, fun vv vd : pyval =>
                         match snd kv with
                         | Dict d' => _extract_vals d' vv vd
                         | Leaf _ => ret [if negb (is_None vv) then vv else vd]
                         end)) (sorted syms))) -> In k (keys syms)).
  { intros k Hin. rewrite map_map in Hin. simpl in Hin.
    apply in_map_iff in Hin as (kv & <- & Hkv).
    apply in_map. now apply (proj1 (In_sorted _ _)). }
  apply extract_loop_agree; intros k Hin; [apply Hv|apply Hd]; now apply Hk.
Qed.

Lemma extract_vals_ignores_other_keys_witness :
  _extract_vals demo_syms demo_vals PyNone = _extract_vals demo_syms demo_vals_more PyNone.
Proof.
  apply extract_vals_ignores_other_keys.
  - intros k [<-|[<-|[]]]; reflexivity.
  - intros k _. reflexivity.
Defined.

(** *** The order in which a dictionary lists its items *)

Lemma insert_item_Forall2 {V W} (R : string * V -> string * W -> Prop) x y l l' :
  (forall a b, R a b -> fst a = fst b) ->
  R x y -> Forall2 R l l' -> Forall2 R (insert_item x l) (insert_item y l').
Proof.
  intros HR Hxy Hl. induction Hl as [|a b l l' Hab Hl IH]; simpl.
  - repeat constructor. exact Hxy.
  - rewrite <- (HR _ _ Hxy), <- (HR _ _ Hab).
    destruct (String.leb (fst x) (fst a)); repeat (constructor; try assumption).
Qed.

Lemma sorted_Forall2 {V W} (R : string * V -> string * W -> Prop) d d' :
  (forall a b, R a b -> fst a = fst b) ->
  Forall2 R d d' -> Forall2 R (sorted d) (sorted d').
Proof.
  intros HR H. induction H as [|x y l l' Hxy Hl IH]; simpl; [constructor|].
  now apply insert_item_Forall2.
Qed.

Lemma extract_loop_pointwise
    (items items' : list (string * (pyval -> pyval -> result (list pyval)))) vals defaults :
  Forall2 (fun a b => fst a = fst b /\ forall vv vd, snd a vv vd = snd b vv vd) items items' ->
  extract_loop items vals defaults = extract_loop items' vals defaults.
Proof.
  induction 1 as [|[k body] [k' body'] l l' [Hk Hb] _ IH]; simpl; [reflexivity|].
  simpl in Hk, Hb. subst k'. now rewrite Hb, IH.
Qed.

Lemma same_tree_traversals t1 : forall t2, same_tree t1 t2 -> traversals_agree t1 t2.
Proof.
  induction t1 as [s|d1 IH] using symtree_ind'; intros t2 H;
    inversion H as [|d1a d d2 Hnd Hperm H4]; subst.
  - split; reflexivity.
  - assert (Hs : sorted d1 = sorted d) by now apply sorted_deterministic.
    assert (HF : Forall2 (fun x y => fst x = fst y /\ traversals_agree (snd x) (snd y))
                         (sorted d) (sorted d2)).
    { apply sorted_Forall2; [now intros a b [E _]|].
      assert (IHd : Forall (fun kv => forall t2, same_tree (snd kv) t2 ->
                                      traversals_agree (snd kv) t2) d)
        by (eapply Permutation_Forall; eassumption).
      clear - H4 IHd. induction H4 as [|x y l l' [E Hxy] _ IHl]; [constructor|].
      inversion IHd; subst. constructor; [split; [exact E|auto]|auto]. }
    split.
    + simpl. rewrite !(sorted_map flatten_value), Hs, !map_map. f_equal.
      clear - HF. induction HF as [|x y l l' [_ [E _]] _ IHl]; simpl; [reflexivity|].
      f_equal; [exact E|exact IHl].
    + intros vv vd. simpl. rewrite !(sorted_map extract_value), Hs.
      apply extract_loop_pointwise.
      clear - HF. induction HF as [|x y l l' [E [_ Hxy]] _ IHl]; simpl; constructor; auto.
Qed.

(** X7: two symbol trees with the same items at every level, listed in whatever
    order, are flattened to the same sequence of symbols, and the same values
    are extracted for them. *)
Theorem traversals_ignore_listing_order (syms syms' : dict symtree) (vals defaults : pyval) :
  same_tree (Dict syms) (Dict syms') ->
  _flatten syms = _flatten syms' /\
  _extract_vals syms vals defaults = _extract_vals syms' vals defaults.
Proof.
  intros H. destruct (same_tree_traversals _ _ H) as [Hf He].
  split; [exact Hf|apply He].
Qed.

Lemma demo_syms_same_tree : same_tree (Dict demo_syms) (Dict demo_syms_reordered).
Proof.
  apply same_dict with (d1' := rev demo_syms).
  - repeat constructor; simpl; intuition discriminate.
  - apply Permutation_rev.
  - simpl. constructor; [split; [reflexivity|constructor]|].
    constructor; [|constructor]. split; [reflexivity|].
    apply same_dict with (d1' := [("x", Leaf (TVar 1)); ("y", Leaf (TVar 2))]).
    + repeat constructor; simpl; intuition discriminate.
    + apply perm_swap.
    + repeat constructor.
Qed.

Lemma traversals_ignore_listing_order_witness :
  _flatten demo_syms = _flatten demo_syms_reordered /\
  _extract_vals demo_syms demo_vals PyNone = _extract_vals demo_syms_reordered demo_vals PyNone.
Proof.
  apply traversals_ignore_listing_order. exact demo_syms_same_tree.
Defined.

End FuncWrapperExtra.

(** * Further properties of the network priors *)

Module GraphExtra.
Import Graph GraphSpec.

Local Open Scope R_scope.

(** *** Arrays *)

Lemma nth_map_seq {A} (f : nat -> A) (n i : nat) (d : A) :
  (i < n)%nat -> nth i (map f (seq 0 n)) d = f i.
Proof.
  intros Hi. rewrite (nth_indep _ d (f 0%nat)) by now rewrite length_map, length_seq.
  rewrite map_nth, seq_nth by exact Hi. reflexivity.
Qed.

Lemma nth_repeat_lt {A} (a d : A) (n i : nat) : (i < n)%nat -> nth i (repeat a n) d = a.
Proof.
  intros Hi. rewrite (nth_indep _ d a) by now rewrite repeat_length.
  apply nth_repeat.
Qed.

Lemma mat_get_scaled_ones r n i j :
  (i < n)%nat -> (j < n)%nat -> mat_get (scale r (ones n n)) i j = r.
Proof.
  intros Hi Hj. unfold mat_get, scale, ones.
  rewrite (nth_indep _ [] (map (Rmult r) [])) by now rewrite length_map, repeat_length.
  rewrite map_nth, nth_repeat_lt by exact Hi.
  rewrite (nth_indep _ 0 (r * 0)) by now rewrite length_map, repeat_length.
  rewrite map_nth, nth_repeat_lt by exact Hj. lra.
Qed.

Lemma mat_get_set_diag n c m i j :
  (i < n)%nat -> (j < n)%nat ->
  mat_get (set_diag n c m) i j = if Nat.eqb i j then c else mat_get m i j.
Proof.
  intros Hi Hj. unfold mat_get at 1, set_diag.
  rewrite nth_map_seq by exact Hi. now rewrite nth_map_seq by exact Hj.
Qed.

Lemma matrix_of_shape {A} (f : nat -> nat -> A) n m :
  List.length (map (fun i => map (f i) (seq 0 m)) (seq 0 n)) = n /\
  Forall (fun row => List.length row = m) (map (fun i => map (f i) (seq 0 m)) (seq 0 n)).
Proof.
  split; [now rewrite length_map, length_seq|].
  apply Forall_forall. intros row Hrow. apply in_map_iff in Hrow as (i & <- & _).
  now rewrite length_map, length_seq.
Qed.

(** The matrix drawn against the probabilities [p]: of the shape asked for,
    with entries 0 and 1, an entry being 1 exactly when the uniform draw is
    below the probability. *)
Lemma bernoulli_spec n m U p :
  List.length (bernoulli n m U p) = n /\
  Forall (fun row => List.length row = m /\ Forall (fun a => a = 0%Z \/ a = 1%Z) row)
         (bernoulli n m U p) /\
  forall i j, (i < n)%nat -> (j < m)%nat ->
    nth j (nth i (bernoulli n m U p) []) 0%Z = if flt (mat_get U i j) (p i j) then 1%Z else 0%Z.
Proof.
  unfold bernoulli. split; [now rewrite length_map, length_seq|]. split.
  - apply Forall_forall. intros row Hrow. apply in_map_iff in Hrow as (i & <- & _).
    split; [now rewrite length_map, length_seq|].
    apply Forall_forall. intros a Ha. apply in_map_iff in Ha as (j & <- & _).
    destruct (flt _ _); auto.
  - intros i j Hi Hj. rewrite nth_map_seq by exact Hi. now rewrite nth_map_seq by exact Hj.
Qed.

Lemma flt_Fin u b : flt u (Fin b) = true <-> u < b.
Proof. simpl. destruct (Rlt_dec u b); split; intros; try discriminate; tauto. Qed.

(** *** The Erdos-Renyi model *)

Lemma bind_inr {A B} (m : result A) (k : A -> result B) (b : B) :
  bind m k = inr b -> exists a, m = inr a /\ k a = inr b.
Proof. destruct m as [e|a]; simpl; [discriminate|]. intros H. now exists a. Qed.

(** What the constructor builds from well-formed options. *)
Lemma ER_init_ok model prms N r rr :
  (n <- cfg_get model "network" ;; cfg_get n "graph") = inr prms ->
  (n <- cfg_get model "N" ;; as_dim n) = inr N ->
  (x <- cfg_get prms "rho" ;; as_float x) = inr r ->
  rho_refractory_is prms rr ->
  ErdosRenyiGraphModel_init model =
  inr {| er_model := model; er_prms := prms; er_N := N;
         er_rho := match rr with
                   | Some c => set_diag N c (scale r (ones N N))
                   | None => scale r (ones N N)
                   end;
         er_lkhd_scale := 1 |}.
Proof.
  intros Hprms HN Hrho Hrr. unfold ErdosRenyiGraphModel_init.
  apply bind_inr in HN as (n0 & HN0 & HN1). apply bind_inr in Hrho as (x0 & Hx0 & Hx1).
  rewrite Hprms. cbn [bind]. rewrite HN0. cbn [bind]. rewrite Hx0. cbn [bind].
  rewrite HN1. cbn [bind]. rewrite Hx1. cbn [bind ret].
  destruct rr as [c|]; simpl in Hrr.
  - destruct Hrr as [Hin Hc]. rewrite Hin, Hc. reflexivity.
  - rewrite Hrr. reflexivity.
Qed.

(** X8: the matrix [rho] of the model: N x N, the option [rho] everywhere, except
    on the diagonal when [rho_refractory] is given. *)
Theorem ER_init_rho_matrix (model prms : cfg) (N : nat) (r : R) (rr : option R) :
  (n <- cfg_get model "network" ;; cfg_get n "graph") = inr prms ->
  (n <- cfg_get model "N" ;; as_dim n) = inr N ->
  (x <- cfg_get prms "rho" ;; as_float x) = inr r ->
  rho_refractory_is prms rr ->
  exists self,
    ErdosRenyiGraphModel_init model = inr self /\
    er_N self = N /\
    List.length (er_rho self) = N /\
    Forall (fun row => List.length row = N) (er_rho self) /\
    forall i j, (i < N)%nat -> (j < N)%nat ->
      mat_get (er_rho self) i j =
      match rr with
      | Some c => if Nat.eqb i j then c else r
      | None => r
      end.
Proof.
  intros Hprms HN Hrho Hrr. eexists. split; [now apply (ER_init_ok model prms N r rr)|].
  cbn [er_N er_rho]. split; [reflexivity|].
  destruct rr as [c|].
  - destruct (matrix_of_shape (fun i j => if Nat.eqb i j then c
                                           else mat_get (scale r (ones N N)) i j) N N)
      as [Hlen Hrows].
    split; [exact Hlen|]. split; [exact Hrows|].
    intros i j Hi Hj. rewrite mat_get_set_diag by assumption.
    destruct (Nat.eqb i j); [reflexivity|now apply mat_get_scaled_ones].
  - unfold scale, ones. split; [now rewrite length_map, repeat_length|]. split.
    + apply Forall_forall. intros row Hrow. apply in_map_iff in Hrow as (row' & <- & Hrow').
      apply repeat_spec in Hrow'. subst. now rewrite length_map, repeat_length.
    + intros i j Hi Hj. now apply mat_get_scaled_ones.
Qed.

Lemma SparseWeightedModel_options :
  (n <- cfg_get SparseWeightedModel "network" ;; cfg_get n "graph") =
    inr (CDict [("type", CStr "erdos_renyi"); ("rho", CFloat 0.5);
                ("rho_refractory", CFloat 1.0)]) /\
  (n <- cfg_get SparseWeightedModel "N" ;; as_dim n) = inr 1%nat.
Proof. split; reflexivity. Qed.

Lemma ER_init_rho_matrix_witness :
  exists self,
    ErdosRenyiGraphModel_init three_node_model = inr self /\
    er_N self = 3%nat /\
    List.length (er_rho self) = 3%nat /\
    Forall (fun row => List.length row = 3%nat) (er_rho self) /\
    forall i j, (i < 3)%nat -> (j < 3)%nat ->
      mat_get (er_rho self) i j = if Nat.eqb i j then 0.9 else 0.2.
Proof.
  apply (ER_init_rho_matrix three_node_model three_node_options 3 0.2 (Some 0.9)).
  - reflexivity.
  - reflexivity.
  - reflexivity.
  - split; reflexivity.
Defined.

Section Samples.
Variable rng : Type.
Variable random_rand : nat -> nat -> rng -> list (list R) * rng.
Variable random_dirichlet : list R -> rng -> list R * rng.
Variable random_beta : R -> R -> nat -> nat -> rng -> list (list R) * rng.
Variable random_choice : nat -> nat -> list R -> rng -> list nat * rng.

(** X9: [sample()] of the Erdos-Renyi model returns one N x N matrix under the
    name A, with entries 0 and 1; the entry (i,j) is 1 exactly when the uniform
    draw for it is below [rho[i][j]]. *)
Theorem ER_sample_draws_bernoulli (self : ErdosRenyiGraphModel) (g : rng) :
  exists A,
    ER_sample rng random_rand self g =
      ([("A", VInt8Matrix A)], snd (random_rand (er_N self) (er_N self) g)) /\
    List.length A = er_N self /\
    Forall (fun row => List.length row = er_N self /\
                       Forall (fun a => a = 0%Z \/ a = 1%Z) row) A /\
    forall i j, (i < er_N self)%nat -> (j < er_N self)%nat ->
      (nth j (nth i A []) 0%Z = 1%Z <->
       mat_get (fst (random_rand (er_N self) (er_N self) g)) i j < mat_get (er_rho self) i j).
Proof.
  unfold ER_sample. destruct (random_rand (er_N self) (er_N self) g) as [U g'].
  eexists. split; [reflexivity|]. cbn [fst snd].
  destruct (bernoulli_spec (er_N self) (er_N self) U
              (fun i j => Fin (mat_get (er_rho self) i j))) as (Hlen & Hrows & Hnth).
  split; [exact Hlen|]. split; [exact Hrows|].
  intros i j Hi Hj. rewrite (Hnth i j Hi Hj), <- flt_Fin.
  destruct (flt _ _); split; intros; try reflexivity; discriminate.
Qed.

(** X10: with [rho_refractory] given and at least 1 every sampled matrix has
    ones on the diagonal, and with [rho] at most 0 it has zeros off the
    diagonal, whether [rho_refractory] is given or not, for uniform draws in
    [0, 1). *)
Theorem ER_sample_refractory_diagonal
    (model prms : cfg) (N : nat) (r : R) (rr : option R) (g : rng) :
  (n <- cfg_get model "network" ;; cfg_get n "graph") = inr prms ->
  (n <- cfg_get model "N" ;; as_dim n) = inr N ->
  (x <- cfg_get prms "rho" ;; as_float x) = inr r ->
  rho_refractory_is prms rr ->
  (forall i j, (i < N)%nat -> (j < N)%nat ->
     0 <= mat_get (fst (random_rand N N g)) i j < 1) ->
  exists self A,
    ErdosRenyiGraphModel_init model = inr self /\
    ER_sample rng random_rand self g = ([("A", VInt8Matrix A)], snd (random_rand N N g)) /\
    (forall c, rr = Some c -> 1 <= c ->
       forall i, (i < N)%nat -> nth i (nth i A []) 0%Z = 1%Z) /\
    (r <= 0 -> forall i j, (i < N)%nat -> (j < N)%nat -> i <> j ->
               nth j (nth i A []) 0%Z = 0%Z).
Proof.
  intros Hprms HN Hrho Hrr HU.
  destruct (random_rand N N g) as [U g'] eqn:HUg. cbn [fst snd] in *.
  pose (rho := match rr with
               | Some c => set_diag N c (scale r (ones N N))
               | None => scale r (ones N N)
               end).
  eexists.
  exists (bernoulli N N U (fun i j => Fin (mat_get rho i j))).
  split; [now apply (ER_init_ok model prms N r rr)|].
  unfold ER_sample. cbn [er_N er_rho]. rewrite HUg.
  split; [reflexivity|].
  destruct (bernoulli_spec N N U (fun i j => Fin (mat_get rho i j))) as (_ & _ & Hnth).
  split.
  - intros c -> Hc i Hi. rewrite (Hnth i i Hi Hi). unfold rho.
    rewrite mat_get_set_diag, Nat.eqb_refl by exact Hi.
    destruct (flt _ _) eqn:E; [reflexivity|].
    assert (Hlt : flt (mat_get U i i) (Fin c) = true)
      by (apply flt_Fin; specialize (HU i i Hi Hi); lra).
    congruence.
  - intros Hr i j Hi Hj Hij. rewrite (Hnth i j Hi Hj).
    assert (Hrho_ij : mat_get rho i j = r).
    { unfold rho. destruct rr as [c|].
      - rewrite mat_get_set_diag by assumption.
        apply Nat.eqb_neq in Hij. rewrite Hij. now apply mat_get_scaled_ones.
      - now apply mat_get_scaled_ones. }
    rewrite Hrho_ij.
    destruct (flt _ _) eqn:E; [|reflexivity].
    apply flt_Fin in E. specialize (HU i j Hi Hj). lra.
Qed.

End Samples.

Lemma ER_sample_refractory_diagonal_witness :
  exists self A,
    ErdosRenyiGraphModel_init isolated_model = inr self /\
    ER_sample unit (fun n m g => (repeat (repeat 0.5 m) n, g)) self tt =
      ([("A", VInt8Matrix A)], tt) /\
    (forall i, (i < 2)%nat -> nth i (nth i A []) 0%Z = 1%Z) /\
    (forall i j, (i < 2)%nat -> (j < 2)%nat -> i <> j -> nth j (nth i A []) 0%Z = 0%Z).
Proof.
  assert (HU : forall i j, (i < 2)%nat -> (j < 2)%nat ->
            0 <= mat_get (fst (repeat (repeat 0.5 2) 2, tt)) i j < 1).
  { intros i j Hi Hj.
    destruct i as [|[|i]]; [| |lia]; (destruct j as [|[|j]]; [| |lia]);
      unfold mat_get; simpl; lra. }
  destruct (ER_sample_refractory_diagonal unit (fun n m g => (repeat (repeat 0.5 m) n, g))
              isolated_model isolated_options 2 0 (Some 1) tt
              eq_refl eq_refl eq_refl (conj eq_refl eq_refl) HU)
    as (self & A & Hinit & Hsample & Hdiag & Hoff).
  exists self, A. split; [exact Hinit|]. split; [exact Hsample|]. split.
  - apply (Hdiag 1 eq_refl). lra.
  - apply Hoff. lra.
Defined.

(** X11: the log probability of the Erdos-Renyi model is finite for every [A]
    when [rho] is positive and [rho_refractory], if given, is positive too
    (the value 1 included). *)
Theorem ER_log_p_finite (model prms : cfg) (N : nat) (r : R) (rr : option R)
    (A : list (list Z)) :
  (n <- cfg_get model "network" ;; cfg_get n "graph") = inr prms ->
  (n <- cfg_get model "N" ;; as_dim n) = inr N ->
  (x <- cfg_get prms "rho" ;; as_float x) = inr r ->
  rho_refractory_is prms rr ->
  0 < r -> (forall c, rr = Some c -> 0 < c) ->
  exists self,
    ErdosRenyiGraphModel_init model = inr self /\ is_finite (ER_log_p self A) = true.
Proof.
  intros Hprms HN Hrho Hrr Hr Hc.
  eexists. split; [now apply (ER_init_ok model prms N r rr)|].
  unfold ER_log_p.
  assert (H : is_finite (ER_lkhd
                {| er_model := model; er_prms := prms; er_N := N;
                   er_rho := match rr with
                             | Some c => set_diag N c (scale r (ones N N))
                             | None => scale r (ones N N)
                             end;
                   er_lkhd_scale := 1 |} A) = true).
  { apply ER_lkhd_finite. cbn [er_N er_rho]. intros i j Hi Hj.
    destruct rr as [c|].
    - rewrite mat_get_set_diag by assumption.
      destruct (Nat.eqb i j); [now apply Hc|now rewrite mat_get_scaled_ones].
    - now rewrite mat_get_scaled_ones. }
  destruct (ER_lkhd _ A); try discriminate H. reflexivity.
Qed.

Lemma ER_log_p_finite_witness :
  exists self,
    ErdosRenyiGraphModel_init SparseWeightedModel = inr self /\
    is_finite (ER_log_p self [[1%Z]]) = true.
Proof.
  apply (ER_log_p_finite SparseWeightedModel
           (CDict [("type", CStr "erdos_renyi"); ("rho", CFloat 0.5);
                   ("rho_refractory", CFloat 1.0)]) 1 0.5 (Some 1.0)).
  - reflexivity.
  - reflexivity.
  - reflexivity.
  - split; reflexivity.
  - lra.
  - intros c [= <-]. lra.
Defined.

(** X12: with [rho] equal to 0 and at least two nodes the log probability of the
    Erdos-Renyi model is not finite for any [A]: [rho] is clamped from above
    only before its logarithm is taken. *)
Theorem ER_log_p_rho_zero_not_finite (model prms : cfg) (N : nat) (rr : option R)
    (A : list (list Z)) :
  (n <- cfg_get model "network" ;; cfg_get n "graph") = inr prms ->
  (n <- cfg_get model "N" ;; as_dim n) = inr N ->
  (x <- cfg_get prms "rho" ;; as_float x) = inr 0 ->
  rho_refractory_is prms rr ->
  (2 <= N)%nat ->
  exists self,
    ErdosRenyiGraphModel_init model = inr self /\ is_finite (ER_log_p self A) = false.
Proof.
  intros Hprms HN Hrho Hrr H2.
  eexists. split; [now apply (ER_init_ok model prms N 0 rr)|].
  unfold ER_log_p. apply fmul_not_finite_r.
  apply (ER_lkhd_rho_zero_not_finite _ A 0%nat 1%nat); cbn [er_N er_rho]; try lia.
  destruct rr as [c|].
  - rewrite mat_get_set_diag by lia. simpl. apply mat_get_scaled_ones; lia.
  - apply mat_get_scaled_ones; lia.
Qed.

Lemma ER_log_p_rho_zero_not_finite_witness :
  exists self,
    ErdosRenyiGraphModel_init
      (CDict [("N", CInt 2);
              ("network", CDict [("graph", CDict [("type", CStr "erdos_renyi");
                                                  ("rho", CFloat 0)])])]) = inr self /\
    is_finite (ER_log_p self [[0; 0]; [0; 0]]%Z) = false.
Proof.
  apply (ER_log_p_rho_zero_not_finite _
           (CDict [("type", CStr "erdos_renyi"); ("rho", CFloat 0)]) 2 None).
  - reflexivity.
  - reflexivity.
  - reflexivity.
  - reflexivity.
  - lia.
Defined.

(** *** The stochastic block model *)

Lemma fsum_all_finite l :
  Forall (fun x => is_finite x = true) l -> is_finite (fsum l) = true.
Proof. intros H. unfold fsum. now apply fold_left_fadd_all_finite. Qed.

Lemma T_sum_all_finite n m f :
  (forall i j, (i < n)%nat -> (j < m)%nat -> is_finite (f i j) = true) ->
  is_finite (T_sum n m f) = true.
Proof.
  intros H. unfold T_sum. apply fsum_all_finite. apply Forall_forall. intros x Hx.
  apply in_flat_map in Hx as (i & Hi & Hx). apply in_map_iff in Hx as (j & <- & Hj).
  apply in_seq in Hi. apply in_seq in Hj. apply H; lia.
Qed.

(** The Bernoulli term of one entry is finite for a probability strictly
    between 0 and 1. *)
Lemma bernoulli_term_finite (a : fval) (p : R) :
  is_finite a = true -> 0 < p < 1 ->
  is_finite (fadd (fmul a (flog (Fin p))) (fmul (fsub (Fin 1) a) (flog (fsub (Fin 1) (Fin p)))))
  = true.
Proof.
  intros Ha Hp. destruct a as [x| | |]; try discriminate.
  change (fsub (Fin 1) (Fin p)) with (Fin (1 + - p)).
  rewrite !flog_pos by lra. reflexivity.
Qed.

(** X13: the log probability of the stochastic block model is finite for every
    [A] when the entries of [B] are strictly between 0 and 1, the entries of
    [alpha] are positive and [Y] assigns every node a block of [B]. *)
Theorem SBM_log_p_finite (self : StochasticBlockGraphModel)
    (A : list (list Z)) (Y : list nat) (B : list (list R)) (alpha : list R) :
  Forall (Forall (fun b => 0 < b < 1)) B ->
  Forall (fun a => 0 < a) alpha ->
  (forall i j, (i < sbm_N self)%nat -> (j < sbm_N self)%nat ->
     0 < mat_get B (nth i Y 0%nat) (nth j Y 0%nat) < 1) ->
  is_finite (SBM_log_p self A Y B alpha) = true.
Proof.
  intros HB Halpha HY. unfold SBM_log_p.
  assert (H1 : is_finite (SBM_log_p_B self B) = true).
  { unfold SBM_log_p_B. apply fsum_all_finite. apply Forall_forall. intros x Hx.
    apply in_flat_map in Hx as (row & Hrow & Hx). apply in_map_iff in Hx as (b & <- & Hb).
    rewrite Forall_forall in HB. specialize (HB _ Hrow). rewrite Forall_forall in HB.
    specialize (HB _ Hb).
    change (fsub (Fin 1) (Fin b)) with (Fin (1 + - b)).
    rewrite !flog_pos by lra. reflexivity. }
  assert (H2 : is_finite (SBM_log_p_alpha self alpha) = true).
  { unfold SBM_log_p_alpha. apply fsum_all_finite. apply Forall_forall. intros x Hx.
    apply in_map_iff in Hx as ([a0 a] & <- & Ha). apply in_combine_r in Ha.
    rewrite Forall_forall in Halpha. specialize (Halpha _ Ha). cbn [fst snd].
    rewrite flog_pos by exact Halpha. reflexivity. }
  assert (H3 : is_finite (SBM_log_p_A self A Y B) = true).
  { unfold SBM_log_p_A. apply T_sum_all_finite. intros i j Hi Hj.
    unfold SBM_pA. apply bernoulli_term_finite; [reflexivity|now apply HY]. }
  destruct (SBM_log_p_B self B), (SBM_log_p_alpha self alpha), (SBM_log_p_A self A Y B);
    try discriminate. reflexivity.
Qed.

(** X14: the constructor of the stochastic block model looks up R, b0, b1 and
    alpha0 in this order, before it computes with any of them: for a positive
    integer N, the first of them that the options lack is the key of the
    [KeyError] it raises, whatever the values of the options before it. *)
Theorem SBM_init_missing_option (model : cfg) (d : list (string * cfg)) (N_value : cfg) :
  (n <- cfg_get model "network" ;; cfg_get n "graph") = inr (CDict d) ->
  cfg_get model "N" = inr N_value ->
  (get d "R" = None -> StochasticBlockGraphModel_init model = inl (KeyError "R")) /\
  (forall N, as_dim N_value = inr N -> (0 < N)%nat -> get d "R" <> None ->
     (get d "b0" = None -> StochasticBlockGraphModel_init model = inl (KeyError "b0")) /\
     (get d "b0" <> None ->
        (get d "b1" = None -> StochasticBlockGraphModel_init model = inl (KeyError "b1")) /\
        (get d "b1" <> None -> get d "alpha0" = None ->
         StochasticBlockGraphModel_init model = inl (KeyError "alpha0")))).
Proof.
  intros Hprms HN. unfold StochasticBlockGraphModel_init.
  rewrite Hprms. cbn [bind]. rewrite HN. cbn [bind]. unfold cfg_get.
  split; [intros H; rewrite H; reflexivity|].
  intros N HNd _ HR. destruct (get d "R") as [R_value|]; [|contradiction].
  cbn [bind ret]. rewrite HNd. cbn [bind].
  split; [intros H; rewrite H; reflexivity|].
  intros Hb0. destruct (get d "b0") as [b0|]; [|contradiction]. cbn [bind ret].
  split; [intros H; rewrite H; reflexivity|].
  intros Hb1 H. destruct (get d "b1") as [b1|]; [|contradiction]. cbn [bind ret].
  rewrite H. reflexivity.
Qed.

Lemma SBM_init_missing_option_witness :
  StochasticBlockGraphModel_init negative_R_model = inl (KeyError "b0").
Proof.
  destruct (SBM_init_missing_option negative_R_model
              [("type", CStr "sbm"); ("R", CInt (-1))] (CInt 2) eq_refl eq_refl) as [_ H].
  assert (HR : get [("type", CStr "sbm"); ("R", CInt (-1))] "R" <> None)
    by (simpl; discriminate).
  destruct (H 2%nat eq_refl (Nat.lt_0_succ 1) HR) as [Hmissing _].
  exact (Hmissing eq_refl).
Defined.

Lemma SBM_log_p_finite_witness :
  is_finite (SBM_log_p {| sbm_model := CNone; sbm_prms := CNone; sbm_N := 2; sbm_R := 1;
                          sbm_b0 := 1; sbm_b1 := 1; sbm_alpha0 := [1] |}
                       [[1; 0]; [0; 1]]%Z [0; 0]%nat [[0.5]] [1]) = true.
Proof.
  apply SBM_log_p_finite.
  - repeat constructor; lra.
  - repeat constructor; lra.
  - intros i j Hi Hj. cbn [sbm_N] in Hi, Hj.
    destruct i as [|[|i]]; [| |lia]; (destruct j as [|[|j]]; [| |lia]);
      unfold mat_get; simpl; lra.
Defined.

(** *** The latent distance model *)

Section LatentDistanceExtra.
Variable prior : Type.
Variable prior_log_p : prior -> list (list R) -> fval.

Lemma LD_sq_dist_sym (self : LatentDistanceGraphModel prior) L i j :
  LD_sq_dist self L i j = LD_sq_dist self L j i.
Proof.
  unfold LD_sq_dist. f_equal. apply map_ext. intros d. ring.
Qed.




(** X15: the edge probabilities are the same in both directions. *)
Theorem LD_pA_symmetric (self : LatentDistanceGraphModel prior) (L : list R) (delta : R)
    (i j : nat) :
  LD_pA self L delta i j = LD_pA self L delta j i.
Proof.
  unfold LD_pA. rewrite !LD_D_sq_dist, (LD_sq_dist_sym self L i j).
  unfold eye. now rewrite (Nat.eqb_sym i j).
Qed.


(** The Bernoulli term of one entry is finite only for a probability strictly
    between 0 and 1. *)
Lemma bernoulli_term_finite_inv (a : R) (P : fval) :
  is_finite (fadd (fmul (Fin a) (flog P)) (fmul (fsub (Fin 1) (Fin a)) (flog (fsub (Fin 1) P))))
  = true ->
  exists p, P = Fin p /\ 0 < p < 1.
Proof.
  intros H. apply fadd_finite in H as [H1 H2].
  destruct P as [p| | |].
  - exists p. split; [reflexivity|].
    destruct (Rlt_dec 0 p) as [H0|H0].
    + destruct (Rlt_dec p 1) as [Hp1|Hp1]; [lra|]. exfalso.
      rewrite fmul_not_finite_r in H2; [discriminate|].
      change (fsub (Fin 1) (Fin p)) with (Fin (1 + - p)). simpl.
      destruct (Rlt_dec 0 (1 + - p)); [lra|].
      destruct (Req_dec_T (1 + - p) 0); reflexivity.
    + exfalso. rewrite fmul_not_finite_r in H1; [discriminate|]. simpl.
      destruct (Rlt_dec 0 p); [contradiction|].
      destruct (Req_dec_T p 0); reflexivity.
  - exfalso. rewrite fmul_not_finite_r in H1; [discriminate|reflexivity].
  - exfalso. rewrite fmul_not_finite_r in H1; [discriminate|reflexivity].
  - exfalso. rewrite fmul_not_finite_r in H1; [discriminate|reflexivity].
Qed.

(** X17: the likelihood term of the latent distance model is finite exactly
    when every entry of [pA], the diagonal included, is a number strictly
    between 0 and 1. *)
Theorem LD_lkhd_finite_iff (self : LatentDistanceGraphModel prior)
    (A : list (list Z)) (L : list R) (delta : R) :
  is_finite (LD_lkhd self A L delta) = true <->
  (forall i j, (i < ld_N self)%nat -> (j < ld_N self)%nat ->
     exists p, LD_pA self L delta i j = Fin p /\ 0 < p < 1).
Proof.
  unfold LD_lkhd. split.
  - intros H i j Hi Hj.
    apply (T_sum_finite _ _ _ i j Hi Hj) in H. cbv beta in H.
    unfold int8_get in H. now apply bernoulli_term_finite_inv in H.
  - intros H. apply T_sum_all_finite. intros i j Hi Hj.
    destruct (H i j Hi Hj) as (p & -> & Hp).
    apply bernoulli_term_finite; [reflexivity|exact Hp].
Qed.

End LatentDistanceExtra.


(** *** Sorting the locations *)

Lemma insert_row_perm r l : Permutation (r :: l) (insert_row r l).
Proof.
  induction l as [|r' l IH]; simpl; [reflexivity|].
  destruct (Rle_dec (hd 0 r) (hd 0 r')); [reflexivity|].
  rewrite perm_swap. now constructor.
Qed.

Lemma sort_rows_perm L : Permutation L (sort_rows L).
Proof.
  induction L as [|r L IH]; simpl; [reflexivity|].
  rewrite <- insert_row_perm. now constructor.
Qed.

Lemma insert_row_sorted r l : rows_sorted l -> rows_sorted (insert_row r l).
Proof.
  unfold rows_sorted. induction 1 as [|r' l Hl IH Hhd]; simpl.
  - repeat constructor.
  - destruct (Rle_dec (hd 0 r) (hd 0 r')) as [Hle|Hgt].
    + constructor; [now constructor|now constructor].
    + constructor; [exact IH|].
      destruct l as [|r'' l]; simpl.
      * constructor. lra.
      * inversion Hhd; subst. destruct (Rle_dec (hd 0 r) (hd 0 r'')); constructor; lra.
Qed.

Lemma sort_rows_sorted L : rows_sorted (sort_rows L).
Proof.
  induction L as [|r L IH]; simpl; [constructor|]. now apply insert_row_sorted.
Qed.

Section SampleExtra.
Variable prior : Type.
Variable create_prior : cfg -> result prior.
Variable rng : Type.
Variable prior_sample : prior -> nat -> nat -> rng -> list (list R) * rng.
Variable random_rand : nat -> nat -> rng -> list (list R) * rng.
Variable random_dirichlet : list R -> rng -> list R * rng.
Variable random_beta : R -> R -> nat -> nat -> rng -> list (list R) * rng.
Variable random_choice : nat -> nat -> list R -> rng -> list nat * rng.

(** X18: with the options [sorted] and [delta] present, [sample()] of the latent
    distance model returns A, L and delta; L holds the rows drawn from the
    location prior, row after row, and when [sorted] is true the rows are put
    in the order of their first coordinates first. *)
Theorem LD_sample_sorts_locations (self : LatentDistanceGraphModel prior) (g : rng)
    (sorted_option : cfg) (delta : R) :
  cfg_get (ld_prms self) "sorted" = inr sorted_option ->
  (x <- cfg_get (ld_prms self) "delta" ;; as_float x) = inr delta ->
  exists rows A,
    fst (LD_sample prior_sample random_rand self g) =
      inr [("A", VInt8Matrix A); ("L", VVector (List.concat rows)); ("delta", VScalar delta)] /\
    Permutation
      (fst (prior_sample (ld_location_prior self) (ld_N self) (ld_N_dims self) g)) rows /\
    (truthy sorted_option = true -> rows_sorted rows) /\
    (truthy sorted_option = false ->
     rows = fst (prior_sample (ld_location_prior self) (ld_N self) (ld_N_dims self) g)) /\
    List.length A = ld_N self.
Proof.
  intros Hs Hd. unfold LD_sample.
  destruct (prior_sample (ld_location_prior self) (ld_N self) (ld_N_dims self) g)
    as [L0 g1] eqn:HL.
  rewrite Hs, Hd. cbn [fst].
  destruct (random_rand (ld_N self) (ld_N self) g1) as [U g2] eqn:HU.
  exists (if truthy sorted_option then sort_rows L0 else L0).
  eexists. cbn [fst]. split; [reflexivity|].
  split; [destruct (truthy sorted_option); [apply sort_rows_perm|reflexivity]|].
  split; [intros ->; apply sort_rows_sorted|].
  split; [intros ->; reflexivity|].
  apply bernoulli_spec.
Qed.

(** X19: [sample()] of the latent distance model needs the option [delta], which
    the constructor does not read: without it [sample()] raises [KeyError] for
    the key delta, after the locations have been drawn from the generator. *)
Theorem LD_sample_needs_delta (self : LatentDistanceGraphModel prior) (g : rng)
    (d : list (string * cfg)) (sorted_option : cfg) :
  ld_prms self = CDict d ->
  get d "sorted" = Some sorted_option ->
  get d "delta" = None ->
  LD_sample prior_sample random_rand self g =
  (inl (KeyError "delta"),
   snd (prior_sample (ld_location_prior self) (ld_N self) (ld_N_dims self) g)).
Proof.
  intros Hprms Hs Hd. unfold LD_sample.
  destruct (prior_sample (ld_location_prior self) (ld_N self) (ld_N_dims self) g)
    as [L0 g1].
  rewrite Hprms. unfold cfg_get. rewrite Hs, Hd. reflexivity.
Qed.

(** X20: every [sample()] binds the variables that [get_variables()] declares,
    under the same names and with values of the types of the variables. *)
Theorem sample_binds_declared_variables (g : rng) :
  (forall self : ErdosRenyiGraphModel,
     Forall2 (fun v t => fst v = fst t /\ has_type (snd v) (snd t) = true)
             (fst (ER_sample rng random_rand self g)) (ER_get_variables self)) /\
  (forall self : StochasticBlockGraphModel,
     Forall2 (fun v t => fst v = fst t /\ has_type (snd v) (snd t) = true)
             (fst (SBM_sample rng random_rand random_dirichlet random_beta random_choice self g))
             (SBM_get_variables self)) /\
  (forall (self : LatentDistanceGraphModel prior) vals,
     fst (LD_sample prior_sample random_rand self g) = inr vals ->
     Forall2 (fun v t => fst v = fst t /\ has_type (snd v) (snd t) = true)
             vals (LD_get_variables self)).
Proof.
  split; [|split].
  - intros self. unfold ER_sample. destruct (random_rand _ _ g) as [U g'].
    repeat constructor.
  - intros self. unfold SBM_sample.
    destruct (random_dirichlet _ g) as [alpha g1].
    destruct (random_beta _ _ _ _ g1) as [B g2].
    destruct (random_choice _ _ _ g2) as [Y g3].
    destruct (random_rand _ _ g3) as [U g4].
    repeat constructor.
  - intros self vals. unfold LD_sample.
    destruct (prior_sample _ _ _ g) as [L0 g1].
    destruct (cfg_get (ld_prms self) "sorted") as [e|so]; [discriminate|].
    destruct (x <- cfg_get (ld_prms self) "delta" ;; as_float x) as [e|delta];
      [discriminate|].
    destruct (random_rand _ _ g1) as [U g2]. cbn [fst].
    intros [= <-]. repeat constructor.
Qed.

(** X21: the factory reads the type of the graph at [model['network']['graph']
    ['type']]: a missing key on the way raises [KeyError] for that key, and a
    type that is not a string raises [AttributeError]; no model is built. *)
Theorem create_graph_component_missing_key (d : list (string * cfg)) :
  (get d "network" = None ->
   create_graph_component create_prior (CDict d) = inl (KeyError "network")) /\
  (forall n, get d "network" = Some (CDict n) -> get n "graph" = None ->
   create_graph_component create_prior (CDict d) = inl (KeyError "graph")) /\
  (forall n o, get d "network" = Some (CDict n) -> get n "graph" = Some (CDict o) ->
   (get o "type" = None ->
    create_graph_component create_prior (CDict d) = inl (KeyError "type")) /\
   (forall t, get o "type" = Some t -> (forall s, t <> CStr s) ->
    create_graph_component create_prior (CDict d) = inl AttributeError)).
Proof.
  unfold create_graph_component, cfg_get. split; [|split].
  - intros H. rewrite H. reflexivity.
  - intros n Hn Hg. rewrite Hn. cbn [bind ret]. rewrite Hg. reflexivity.
  - intros n o Hn Hg. rewrite Hn. cbn [bind ret]. rewrite Hg. cbn [bind ret]. split.
    + intros Ht. rewrite Ht. reflexivity.
    + intros t Ht Hs. rewrite Ht. cbn [bind ret].
      destruct t; try reflexivity. exfalso. now apply (Hs s).
Qed.

End SampleExtra.

Lemma LD_sample_sorts_locations_witness :
  let self := {| ld_model := CNone; ld_prms := CDict (("delta", CFloat 1) :: sorted_distance_options);
                 ld_N := 3; ld_N_dims := 1; ld_location_prior := tt;
                 ld_rho_refractory := None; ld_lkhd_scale := 1 |} in
  exists rows A,
    fst (LD_sample (fun _ _ _ g => ([[3]; [1]; [2]], g))
                   (fun n m g => (repeat (repeat 0.5 m) n, g)) self tt) =
      inr [("A", VInt8Matrix A); ("L", VVector (List.concat rows)); ("delta", VScalar 1)] /\
    Permutation [[3]; [1]; [2]] rows /\
    (truthy (CBool true) = true -> rows_sorted rows) /\
    (truthy (CBool true) = false -> rows = [[3]; [1]; [2]]) /\
    List.length A = 3%nat.
Proof.
  apply (LD_sample_sorts_locations unit unit
           (fun _ _ _ g => ([[3]; [1]; [2]], g))
           (fun n m g => (repeat (repeat 0.5 m) n, g))
           {| ld_model := CNone; ld_prms := CDict (("delta", CFloat 1) :: sorted_distance_options);
              ld_N := 3; ld_N_dims := 1; ld_location_prior := tt;
              ld_rho_refractory := None; ld_lkhd_scale := 1 |} tt (CBool true) 1).
  - reflexivity.
  - reflexivity.
Defined.

Lemma LD_sample_needs_delta_witness :
  LD_sample (fun _ _ _ g => ([[3]; [1]; [2]], g))
            (fun n m g => (repeat (repeat 0.5 m) n, g))
            {| ld_model := CNone; ld_prms := CDict sorted_distance_options;
               ld_N := 3; ld_N_dims := 1; ld_location_prior := tt;
               ld_rho_refractory := None; ld_lkhd_scale := 1 |} tt =
  (inl (KeyError "delta"), tt).
Proof.
  apply (LD_sample_needs_delta unit unit
           (fun _ _ _ g => ([[3]; [1]; [2]], g))
           (fun n m g => (repeat (repeat 0.5 m) n, g))
           {| ld_model := CNone; ld_prms := CDict sorted_distance_options;
              ld_N := 3; ld_N_dims := 1; ld_location_prior := tt;
              ld_rho_refractory := None; ld_lkhd_scale := 1 |} tt
           sorted_distance_options (CBool true)).
  - reflexivity.
  - reflexivity.
  - reflexivity.
Defined.

Lemma create_graph_component_missing_key_witness :
  create_graph_component (fun _ => @raise unit TypeError)
    (CDict [("N", CInt 2); ("network", CDict [("weight", CDict [])])]) =
  inl (KeyError "graph").
Proof.
  apply (proj1 (proj2 (create_graph_component_missing_key unit (fun _ => raise TypeError)
                         [("N", CInt 2); ("network", CDict [("weight", CDict [])])]))
               [("weight", CDict [])]).
  - reflexivity.
  - reflexivity.
Defined.

End GraphExtra.
